(** * wordwrap: a streaming word-wrap scanner (ckarenz/wordwrap)

    A shallow embedding of [wordwrap.go] (the Scanner whose accumulators
    are [runeBuffer]s) and of [rune_buffer.go], together with the parts of
    Go's [unicode/utf8], [unicode], [strings] and [bytes] packages these
    files call.

    Conventions.
    - A Go [string] / [[]byte] is a [list byte]; a byte is a [Z] in [0, 256).
    - A [rune] is a Go [int32], carried as a [Z]; conversions to [uint32] and
      [byte] are written out as reductions modulo 2^32 and 2^8.
    - Go [int] counters ([runeCount], the written-byte totals) are carried as
      unbounded [Z]: each of them is bounded by the size of a buffer held in
      memory, so the 64-bit wrap-around is out of reach.
    - [bytes.Buffer] writes always return a nil error, so the in-memory
      writes are total functions here. *)

From Stdlib Require Import Ascii String ZArith List Bool Lia.
Import ListNotations.
Open Scope Z_scope.

Definition byte := Z.
Definition rune := Z.
Definition gostring := list byte.

Definition uint32 (x : Z) : Z := x mod 4294967296.
Definition to_byte (x : Z) : byte := x mod 256.
Definition len {A : Type} (l : list A) : Z := Z.of_nat (length l).

(** ** unicode/utf8 *)
Module utf8.

Definition RuneError : rune := 0xFFFD.
Definition RuneSelf : Z := 0x80.
Definition MaxRune : rune := 0x10FFFF.
Definition UTFMax : Z := 4.

Definition surrogateMin : Z := 0xD800.
Definition surrogateMax : Z := 0xDFFF.

Definition tx : Z := 0x80.
Definition t2 : Z := 0xC0.
Definition t3 : Z := 0xE0.
Definition t4 : Z := 0xF0.
Definition maskx : Z := 0x3F.

Definition rune1Max : Z := 0x7F.
Definition rune2Max : Z := 0x7FF.
Definition rune3Max : Z := 0xFFFF.

Definition locb : Z := 0x80.
Definition hicb : Z := 0xBF.

Definition xx : Z := 0xF1.
Definition as_ : Z := 0xF0.
Definition s1 : Z := 0x02.
Definition s2 : Z := 0x13.
Definition s3 : Z := 0x03.
Definition s4 : Z := 0x23.
Definition s5 : Z := 0x34.
Definition s6 : Z := 0x04.
Definition s7 : Z := 0x44.

(** The 256-entry table [first], by ranges of the leading byte. *)
Definition first (c : byte) : Z :=
  if c <? 0x80 then as_
  else if c <? 0xC2 then xx
  else if c <? 0xE0 then s1
  else if c =? 0xE0 then s2
  else if c <? 0xED then s3
  else if c =? 0xED then s4
  else if c <? 0xF0 then s3
  else if c =? 0xF0 then s5
  else if c <? 0xF4 then s6
  else if c =? 0xF4 then s7
  else xx.

(** [acceptRanges]: the range allowed for the second byte of a sequence. *)
Definition acceptRanges (i : Z) : Z * Z :=
  if i =? 0 then (locb, hicb)
  else if i =? 1 then (0xA0, hicb)
  else if i =? 2 then (locb, 0x9F)
  else if i =? 3 then (0x90, hicb)
  else if i =? 4 then (locb, 0x8F)
  else (0, 0).

(** [appendRuneNonASCII]: the bytes appended for a rune above [rune1Max]. *)
Definition appendRuneNonASCII (r : rune) : list byte :=
  let i := uint32 r in
  let three (r : rune) :=
    [ Z.lor t3 (to_byte (Z.shiftr r 12));
      Z.lor tx (Z.land (to_byte (Z.shiftr r 6)) maskx);
      Z.lor tx (Z.land (to_byte r) maskx) ] in
  if i <=? rune2Max then
    [ Z.lor t2 (to_byte (Z.shiftr r 6));
      Z.lor tx (Z.land (to_byte r) maskx) ]
  else if (MaxRune <? i) || ((surrogateMin <=? i) && (i <=? surrogateMax)) then
    three RuneError
  else if i <=? rune3Max then
    three r
  else
    [ Z.lor t4 (to_byte (Z.shiftr r 18));
      Z.lor tx (Z.land (to_byte (Z.shiftr r 12)) maskx);
      Z.lor tx (Z.land (to_byte (Z.shiftr r 6)) maskx);
      Z.lor tx (Z.land (to_byte r) maskx) ].

(** [AppendRune(nil, r)]: the UTF-8 encoding of [r]. *)
Definition AppendRune (r : rune) : list byte :=
  if uint32 r <=? rune1Max then [to_byte r] else appendRuneNonASCII r.

(** One turn of the loop of [RuneCount], at [p = p[i:]]: the amount by which
    [i] advances (1 on an invalid or short sequence). *)
Definition advance (p : list byte) : Z :=
  match p with
  | [] => 0
  | c :: _ =>
      if c <? RuneSelf then 1
      else
        let x := first c in
        if x =? xx then 1
        else
          let size := Z.land x 7 in
          if len p <? size then 1
          else
            let accept := acceptRanges (Z.shiftr x 4) in
            let c1 := nth 1 p 0 in
            if (c1 <? fst accept) || (snd accept <? c1) then 1
            else if size =? 2 then 2
            else
              let c2 := nth 2 p 0 in
              if (c2 <? locb) || (hicb <? c2) then 1
              else if size =? 3 then 3
              else
                let c3 := nth 3 p 0 in
                if (c3 <? locb) || (hicb <? c3) then 1 else size
  end.

(** [RuneCount]; [skip] is the number of bytes of the current sequence still
    to be stepped over before the next turn of the loop. *)
Fixpoint RuneCount_from (skip : nat) (p : list byte) : Z :=
  match p with
  | [] => 0
  | _ :: rest =>
      match skip with
      | S k => RuneCount_from k rest
      | O => 1 + RuneCount_from (Z.to_nat (advance p - 1)) rest
      end
  end.

Definition RuneCount (p : list byte) : Z := RuneCount_from 0 p.

(** One turn of the loop of [Valid], at [p = p[i:]]: the amount by which
    [i] advances, or [None] where [Valid] returns false. *)
Definition validStep (p : list byte) : option Z :=
  match p with
  | [] => None
  | c :: _ =>
      if c <? RuneSelf then Some 1
      else
        let x := first c in
        if x =? xx then None
        else
          let size := Z.land x 7 in
          if len p <? size then None
          else
            let accept := acceptRanges (Z.shiftr x 4) in
            let c1 := nth 1 p 0 in
            if (c1 <? fst accept) || (snd accept <? c1) then None
            else if size =? 2 then Some 2
            else
              let c2 := nth 2 p 0 in
              if (c2 <? locb) || (hicb <? c2) then None
              else if size =? 3 then Some 3
              else
                let c3 := nth 3 p 0 in
                if (c3 <? locb) || (hicb <? c3) then None else Some size
  end.

Fixpoint Valid_from (skip : nat) (p : list byte) : bool :=
  match p with
  | [] => true
  | _ :: rest =>
      match skip with
      | S k => Valid_from k rest
      | O =>
          match validStep p with
          | None => false
          | Some size => Valid_from (Z.to_nat (size - 1)) rest
          end
      end
  end.

Definition Valid (p : list byte) : bool := Valid_from 0 p.

End utf8.

(** ** unicode.IsSpace *)
Module unicode.

Definition MaxLatin1 : Z := 0xFF.

(** The ranges of [White_Space] above Latin-1. *)
Definition isExcludingLatin_White_Space (r : rune) : bool :=
  (r =? 0x1680)
  || ((0x2000 <=? r) && (r <=? 0x200a))
  || ((0x2028 <=? r) && (r <=? 0x2029))
  || (r =? 0x202f)
  || (r =? 0x205f)
  || (r =? 0x3000).

Definition IsSpace (r : rune) : bool :=
  if uint32 r <=? MaxLatin1 then
    (r =? 0x09) || (r =? 0x0A) || (r =? 0x0B) || (r =? 0x0C) || (r =? 0x0D)
    || (r =? 0x20) || (r =? 0x85) || (r =? 0xA0)
  else isExcludingLatin_White_Space r.

End unicode.

(** ** strings.Repeat, for a one-byte string: panics on a negative count. *)
Definition Repeat (c : byte) (count : Z) : option gostring :=
  if count <? 0 then None else Some (repeat c (Z.to_nat count)).

(** ** bytes.Buffer, as far as [runeBuffer] uses it: the unread content. *)
Module bytes.

Definition Buffer := list byte.

Definition WriteRune (b : Buffer) (r : rune) : Buffer * Z :=
  if uint32 r <? utf8.RuneSelf then (b ++ [to_byte r], 1)
  else let enc := utf8.AppendRune r in (b ++ enc, len enc).

Definition WriteString (b : Buffer) (s : gostring) : Buffer * Z :=
  (b ++ s, len s).

(** [b.WriteTo(w)] for a [w] that is another [Buffer]: the content moves to
    the end of [w] and [b] is reset. *)
Definition WriteTo (b w : Buffer) : Buffer * Buffer * Z :=
  ([], w ++ b, len b).

Definition Reset (b : Buffer) : Buffer := [].

End bytes.

(** ** rune_buffer.go *)
Module RuneBuffer.

Record runeBuffer := mkRuneBuffer {
  buf : bytes.Buffer;
  runeCount : Z
}.

(** The zero value [runeBuffer{}]. *)
Definition zero : runeBuffer := {| buf := []; runeCount := 0 |}.

Definition Count (b : runeBuffer) : Z := runeCount b.
Definition String (b : runeBuffer) : gostring := buf b.

Definition WriteRune (b : runeBuffer) (r : rune) : runeBuffer * Z :=
  let '(buf', n) := bytes.WriteRune (buf b) r in
  ({| buf := buf'; runeCount := runeCount b + 1 |}, n).

Definition WriteString (b : runeBuffer) (s : gostring) : runeBuffer * Z :=
  let '(buf', n) := bytes.WriteString (buf b) s in
  ({| buf := buf';
      runeCount := runeCount b + utf8.RuneCount (firstn (Z.to_nat n) s) |}, n).

(** [b.WriteTo(w)], [w] a buffer other than [b]: returns the new [b], the
    new [w] and the number of bytes moved. *)
Definition WriteTo (b w : runeBuffer) : runeBuffer * runeBuffer * Z :=
  let wcount := runeCount w + runeCount b in
  let '(bbuf, wbuf, n) := bytes.WriteTo (buf b) (buf w) in
  ({| buf := bbuf; runeCount := 0 |}, {| buf := wbuf; runeCount := wcount |}, n).

Definition Reset (b : runeBuffer) : runeBuffer :=
  {| buf := bytes.Reset (buf b); runeCount := 0 |}.

End RuneBuffer.

(** ** Errors and the input source *)

(** [io.EOF], or any other error value (told apart by an identifier). *)
Inductive error : Type :=
| EOF
| Failure (id : nat).

(** An [io.RuneScanner]: the runes it still has to deliver, and the error
    [ReadRune] returns once they are exhausted ([EOF] for a source that
    simply ends). A successful [ReadRune] reports a positive size, here the
    length of the rune's encoding; the scanner only tests it against 0. *)
Record RuneScanner := mkRuneScanner {
  pending : list rune;
  final : error
}.

Definition ReadRune (rs : RuneScanner) : (rune * Z * option error) * RuneScanner :=
  match pending rs with
  | [] => ((0, 0, Some (final rs)), rs)
  | c :: rest =>
      ((c, len (utf8.AppendRune c), None), {| pending := rest; final := final rs |})
  end.

(** [UnreadRune] after a successful [ReadRune] of [c]. *)
Definition UnreadRune (c : rune) (rs : RuneScanner) : option error * RuneScanner :=
  (None, {| pending := c :: pending rs; final := final rs |}).

(** An [io.Writer]. *)
Class Writer (W : Type) := Write : W -> gostring -> (Z * option error) * W.

(** ** wordwrap.go *)
Module Wordwrap.
Import RuneBuffer.

Record Scanner := mkScanner {
  r : RuneScanner;
  limit : Z;
  prefix : gostring;
  tabWidth : Z;
  err : option error;
  line : runeBuffer;
  word : runeBuffer;
  space : runeBuffer;
  needNewline : bool;
  skipNextWS : bool
}.

Definition set_r (x : RuneScanner) (s : Scanner) : Scanner :=
  mkScanner x (limit s) (prefix s) (tabWidth s) (err s) (line s) (word s)
            (space s) (needNewline s) (skipNextWS s).
Definition set_prefix (x : gostring) (s : Scanner) : Scanner :=
  mkScanner (r s) (limit s) x (tabWidth s) (err s) (line s) (word s)
            (space s) (needNewline s) (skipNextWS s).
Definition set_tabWidth (x : Z) (s : Scanner) : Scanner :=
  mkScanner (r s) (limit s) (prefix s) x (err s) (line s) (word s)
            (space s) (needNewline s) (skipNextWS s).
Definition set_err (x : option error) (s : Scanner) : Scanner :=
  mkScanner (r s) (limit s) (prefix s) (tabWidth s) x (line s) (word s)
            (space s) (needNewline s) (skipNextWS s).
Definition set_line (x : runeBuffer) (s : Scanner) : Scanner :=
  mkScanner (r s) (limit s) (prefix s) (tabWidth s) (err s) x (word s)
            (space s) (needNewline s) (skipNextWS s).
Definition set_word (x : runeBuffer) (s : Scanner) : Scanner :=
  mkScanner (r s) (limit s) (prefix s) (tabWidth s) (err s) (line s) x
            (space s) (needNewline s) (skipNextWS s).
Definition set_space (x : runeBuffer) (s : Scanner) : Scanner :=
  mkScanner (r s) (limit s) (prefix s) (tabWidth s) (err s) (line s) (word s)
            x (needNewline s) (skipNextWS s).
Definition set_needNewline (x : bool) (s : Scanner) : Scanner :=
  mkScanner (r s) (limit s) (prefix s) (tabWidth s) (err s) (line s) (word s)
            (space s) x (skipNextWS s).
Definition set_skipNextWS (x : bool) (s : Scanner) : Scanner :=
  mkScanner (r s) (limit s) (prefix s) (tabWidth s) (err s) (line s) (word s)
            (space s) (needNewline s) x.

Definition NewScanner (rs : RuneScanner) (limit : Z) : Scanner :=
  {| r := rs; limit := limit; prefix := []; tabWidth := 4; err := None;
     line := zero; word := zero; space := zero;
     needNewline := false; skipNextWS := false |}.

Definition SetPrefix (s : Scanner) (prefix : gostring) : Scanner :=
  set_prefix prefix s.

Definition SetTabWidth (s : Scanner) (width : Z) : Scanner :=
  set_tabWidth width s.

Definition peekRune (rs : RuneScanner) : (rune * Z * option error) * RuneScanner :=
  let '((ch, size, e), rs1) := ReadRune rs in
  match e with
  | Some _ => ((ch, size, e), rs1)
  | None =>
      match UnreadRune ch rs1 with
      | (Some e', rs2) => ((0, 0, Some e'), rs2)
      | (None, rs2) => ((ch, size, None), rs2)
      end
  end.

(** [flushWord]: the number of bytes written and the new state. None of the
    writes can fail, so the error result is always nil and is left out. *)
Definition flushWord (s : Scanner) : Z * Scanner :=
  if 0 <? Count (word s) then
    let '(ln, n0) :=
      if Count (line s) =? 0 then WriteString (line s) (prefix s)
      else (line s, 0) in
    let '(sp, ln, n1) := WriteTo (space s) ln in
    let '(wd, ln, n2) := WriteTo (word s) ln in
    (n0 + n1 + n2, set_word wd (set_space sp (set_line ln s)))
  else (0, s).

(** What a call of [ReadLine] produces: the returned pair and the scanner
    afterwards, or a panic ([strings.Repeat] with a negative count). *)
Inductive outcome : Type :=
| Returned (ret : gostring) (e : option error) (s : Scanner)
| Panicked.

(** Control flow of one turn of the loop of [ReadLine]. *)
Inductive flow : Type :=
| Next (s : Scanner)
| Skip (s : Scanner)
| Exit (o : outcome).

(** The first half of the loop body: the branch on [unicode.IsSpace(char)].
    [Next] falls through to the width check, [Skip] is [continue]. *)
Definition processChar (char : rune) (s : Scanner) : flow :=
  if unicode.IsSpace char then
    let s := snd (flushWord s) in
    if char =? 0x0A then
      Exit (Returned (String (line s)) None
              (set_space (Reset (space s))
                 (set_line (Reset (line s)) (set_skipNextWS false s))))
    else if skipNextWS s then Skip s
    else if char =? 0x09 then
      let count :=
        if tabWidth s =? 0 then 0
        else tabWidth s - Z.rem (Count (line s)) (tabWidth s) in
      match Repeat 0x20 count with
      | None => Exit Panicked
      | Some sp => Next (set_space (fst (WriteString (space s) sp)) s)
      end
    else Next (set_space (fst (WriteRune (space s) char)) s)
  else
    let s := set_skipNextWS false (set_word (fst (WriteRune (word s) char)) s) in
    if needNewline s then
      Exit (Returned (String (line s)) None
              (set_line (Reset (line s)) (set_needNewline false s)))
    else Next s.

(** The sum compared against the limit. *)
Definition total (s : Scanner) : Z :=
  Count (line s) + Count (word s) + Count (space s).

(** [err != nil && err != io.EOF] *)
Definition is_failure (e : option error) : bool :=
  match e with
  | Some (Failure _) => true
  | _ => false
  end.

(** The second half of the loop body: "Commit the line if we've reached the
    maximum width". *)
Definition widthCheck (s : Scanner) : flow :=
  if limit s <=? total s then
    let '((next, nextSize, e), rs) := peekRune (r s) in
    let s := set_r rs s in
    if is_failure e then Exit (Returned [] e (set_err e s))
    else
      let s :=
        if (Count (word s) =? limit s) || unicode.IsSpace next || (nextSize =? 0)
        then snd (flushWord s) else s in
      let s :=
        if negb (nextSize =? 0) && negb (next =? 0x0A)
           && (Count (space s) <? limit s)
        then set_needNewline true s else s in
      Next (set_space (Reset (space s)) (set_skipNextWS true s))
  else Next s.

(** The loop of [ReadLine], by recursion on the runes the source still
    holds; [input] is [pending (r s)]. *)
Fixpoint loop (input : list rune) (s : Scanner) : outcome :=
  match input with
  | [] =>
      match final (r s) with
      | EOF =>
          let s := snd (flushWord s) in
          Returned (String (line s)) None
            (set_err (Some EOF) (set_line (Reset (line s)) s))
      | e => Returned [] (Some e) (set_err (Some e) s)
      end
  | char :: rest =>
      let s := set_r {| pending := rest; final := final (r s) |} s in
      match processChar char s with
      | Exit o => o
      | Skip s' => loop rest s'
      | Next s' =>
          match widthCheck s' with
          | Exit o => o
          | Skip s'' | Next s'' => loop rest s''
          end
      end
  end.

Definition ReadLine (s : Scanner) : outcome :=
  match err s with
  | Some e => Returned [] (Some e) s
  | None => loop (pending (r s)) s
  end.

(** The result of [WriteTo]: the byte count, the error, and the scanner and
    the sink afterwards; or a panic inside [ReadLine]. *)
Inductive drained (W : Type) : Type :=
| Drained (n : Z) (e : option error) (s : Scanner) (w : W)
| DrainPanicked.
Arguments Drained {W} n e s w.
Arguments DrainPanicked {W}.

Definition newline : gostring := [0x0A].

(** The loop of [WriteTo]; [None] when [fuel] turns do not reach a return. *)
Fixpoint WriteTo_loop {W : Type} `{Writer W} (fuel : nat) (s : Scanner) (w : W)
    (n : Z) (firstLine : bool) : option (drained W) :=
  match fuel with
  | O => None
  | S fuel' =>
      match ReadLine s with
      | Panicked => Some DrainPanicked
      | Returned _ (Some EOF) s' => Some (Drained n None s' w)
      | Returned _ (Some e) s' => Some (Drained n (Some e) s' w)
      | Returned ln None s' =>
          let '((n1, e1), w1) :=
            if firstLine then ((n, None), w)
            else let '((written, e), w') := Write w newline in
                 ((n + written, e), w') in
          match e1 with
          | Some e => Some (Drained n1 (Some e) s' w1)
          | None =>
              let '((written, e), w2) := Write w1 ln in
              let n2 := n1 + written in
              match e with
              | Some e => Some (Drained n2 (Some e) s' w2)
              | None => WriteTo_loop fuel' s' w2 n2 false
              end
          end
      end
  end.

(** Every call of [ReadLine] that returns a nil error and leaves the scanner
    live consumes a rune, so [length (pending (r s)) + 2] turns are enough. *)
Definition WriteTo {W : Type} `{Writer W} (s : Scanner) (w : W) : option (drained W) :=
  WriteTo_loop (length (pending (r s)) + 2) s w 0 true.

(** How a run of [ReadLine] calls ends. *)
Inductive ending : Type :=
| AtEOF
| AtFailure (e : error)
| AtPanic
| Unfinished.

(** The read loop of the package's tests: the lines returned with a nil
    error, up to the first call that returns an error ([io.EOF] or a failure)
    or panics; [Unfinished] when [fuel] calls do not get there. *)
Fixpoint readLines (fuel : nat) (s : Scanner) : list gostring * ending :=
  match fuel with
  | O => ([], Unfinished)
  | S fuel' =>
      match ReadLine s with
      | Panicked => ([], AtPanic)
      | Returned _ (Some EOF) _ => ([], AtEOF)
      | Returned _ (Some e) _ => ([], AtFailure e)
      | Returned ln None s' =>
          let '(lns, fin) := readLines fuel' s' in (ln :: lns, fin)
      end
  end.

(** The scanner states between calls: [reaches s s'] when some sequence of
    [ReadLine] calls leads from [s] to [s']. *)
Inductive reaches (s : Scanner) : Scanner -> Prop :=
| reaches_here : reaches s s
| reaches_call : forall s1 ret e s2,
    reaches s s1 -> ReadLine s1 = Returned ret e s2 -> reaches s s2.

(** A bound on the number of further calls that can return a line: each
    such call consumes a rune or meets the end of the input. *)
Definition callsLeft (s : Scanner) : nat :=
  match err s with
  | Some _ => 0
  | None => S (length (pending (r s)))
  end.

(** A scanner as a client sets it up. *)
Definition configured (rs : RuneScanner) (limit : Z) (prefix : gostring)
    (tabWidth : Z) : Scanner :=
  SetTabWidth (SetPrefix (NewScanner rs limit) prefix) tabWidth.

End Wordwrap.

(** ** Vocabulary of the statements *)

(** A value of Go's [rune] type. *)
Definition is_rune (c : Z) : Prop := -2147483648 <= c < 2147483648.

(** The bytes of an ASCII literal, which are also its runes. *)
Fixpoint str (s : string) : list Z :=
  match s with
  | EmptyString => []
  | String.String c s' => Z.of_N (N_of_ascii c) :: str s'
  end.

(** A source that delivers [input] and then ends, as [strings.NewReader]. *)
Definition reader (input : list rune) : RuneScanner :=
  {| pending := input; final := EOF |}.

Fixpoint bytes_eqb (a b : gostring) : bool :=
  match a, b with
  | [], [] => true
  | x :: a', y :: b' => (x =? y) && bytes_eqb a' b'
  | _, _ => false
  end.

(** [strings.HasSuffix] *)
Definition HasSuffix (s suffix : gostring) : bool :=
  (length suffix <=? length s)%nat
  && bytes_eqb (skipn (length s - length suffix) s) suffix.

(** The code points with the White_Space property, those [unicode.IsSpace]
    accepts. *)
Definition white_space : list rune :=
  [ 0x09; 0x0A; 0x0B; 0x0C; 0x0D; 0x20; 0x85; 0xA0; 0x1680;
    0x2000; 0x2001; 0x2002; 0x2003; 0x2004; 0x2005; 0x2006; 0x2007; 0x2008;
    0x2009; 0x200A; 0x2028; 0x2029; 0x202F; 0x205F; 0x3000 ].

(** A line ends in whitespace when its bytes end with the encoding of a
    whitespace code point. *)
Definition endsInSpace (ln : gostring) : bool :=
  existsb (fun q => HasSuffix ln (utf8.AppendRune q)) white_space.

(** A continuation byte. *)
Definition isCont (b : byte) : bool := (0x80 <=? b) && (b <=? 0xBF).

(** The part of [p] from its last non-continuation byte on (proof device
    for aligning the last encoded rune of a string). *)
Fixpoint lastSeq (p : list byte) : list byte :=
  match p with
  | [] => []
  | c :: rest => if forallb isCont rest then c :: rest else lastSeq rest
  end.

(** The code point an encoding produced by [AppendRune] stands for (proof
    device: the arithmetic inverse of the encoder on its own output). *)
Definition decoded (p : list byte) : Z :=
  match p with
  | [a] => a
  | [a; b] => (a - 0xC0) * 64 + (b - 0x80)
  | [a; b; c] => (a - 0xE0) * 4096 + (b - 0x80) * 64 + (c - 0x80)
  | [a; b; c; d] =>
      (a - 0xF0) * 262144 + (b - 0x80) * 4096 + (c - 0x80) * 64 + (d - 0x80)
  | _ => 0
  end.

(** What [AppendRune] encodes in place of [c]: [c] itself when it is a
    Unicode scalar value, [RuneError] otherwise. *)
Definition scalar (c : rune) : rune :=
  if (c <? 0) || (utf8.MaxRune <? c)
     || ((utf8.surrogateMin <=? c) && (c <=? utf8.surrogateMax))
  then utf8.RuneError else c.

(** The bytes [bytes.Buffer.WriteRune] appends. *)
Definition encoded (c : rune) : list byte := fst (bytes.WriteRune [] c).

(** The UTF-8 encoding of a scalar value, by division instead of shifts and
    masks (proof device). *)
Definition enc_arith (v : Z) : list byte :=
  if v <? 0x80 then [v]
  else if v <? 0x800 then [0xC0 + v / 64; 0x80 + v mod 64]
  else if v <? 0x10000 then
    [0xE0 + v / 4096; 0x80 + (v / 64) mod 64; 0x80 + v mod 64]
  else
    [0xF0 + v / 262144; 0x80 + (v / 4096) mod 64; 0x80 + (v / 64) mod 64;
     0x80 + v mod 64].

(** A Unicode scalar value. *)
Definition is_scalar (v : Z) : Prop :=
  0 <= v <= 0x10FFFF /\ ~ (0xD800 <= v <= 0xDFFF).

(** *** What the accumulators of a scanner hold *)
Module Holds.
Import RuneBuffer Wordwrap.

(** [bs] is the encoding of [n] runes, none of them whitespace. *)
Definition word_run (bs : gostring) (n : Z) : Prop :=
  exists ws,
    bs = flat_map encoded ws /\ n = len ws
    /\ Forall (fun c => is_rune c /\ unicode.IsSpace c = false) ws.

(** [bs] is the encoding of whitespace runes other than newline. *)
Definition space_run (bs : gostring) : Prop :=
  exists ss,
    bs = flat_map encoded ss
    /\ Forall (fun c => is_rune c /\ unicode.IsSpace c = true /\ c <> 0x0A) ss.

(** A line the scanner may return: it does not end in whitespace, and it has
    no newline unless the prefix has one. *)
Definition good_line (prefix ln : gostring) : Prop :=
  endsInSpace ln = false /\ (~ In 0x0A prefix -> ~ In 0x0A ln).

(** The invariant of the scanner between and during calls. *)
Definition sound (s : Scanner) : Prop :=
  Forall is_rune (pending (r s))
  /\ word_run (String (word s)) (Count (word s))
  /\ space_run (String (space s))
  /\ good_line (prefix s) (String (line s)).

Definition sound_outcome (o : outcome) : Prop :=
  match o with
  | Returned ret _ s' => sound s' /\ good_line (prefix s') ret
  | Panicked => True
  end.

Definition sound_flow (f : flow) : Prop :=
  match f with
  | Next s' | Skip s' => sound s'
  | Exit o => sound_outcome o
  end.

(** The state of a fresh scanner while it reads whitespace only: nothing
    committed, no word, no break pending. *)
Definition blank (s : Scanner) : Prop :=
  line s = zero /\ word s = zero /\ needNewline s = false /\ err s = None
  /\ 0 <= Count (space s).

End Holds.

(** *** Accumulators in a store, for sequences of operations *)
Module Ops.
Import RuneBuffer.

(** Buffers are named by numbers; an operation names the buffers it acts
    on, so that a transfer between two of them is one step. *)
Definition store := nat -> runeBuffer.

Definition fresh : store := fun _ => zero.

Definition upd (st : store) (i : nat) (b : runeBuffer) : store :=
  fun k => if Nat.eqb k i then b else st k.

Inductive op : Type :=
| OpWriteRune (i : nat) (c : rune)
| OpWriteString (i : nat) (s : gostring)
| OpWriteTo (i j : nat)
| OpReset (i : nat).

(** [OpWriteTo i j] is [st i].WriteTo(&[st j]). When [i = j] the buffer is
    written to itself and then emptied by [bytes.Buffer.WriteTo], with its
    count already zeroed: the effect of [Reset]. *)
Definition run_op (st : store) (o : op) : store :=
  match o with
  | OpWriteRune i c => upd st i (fst (WriteRune (st i) c))
  | OpWriteString i s => upd st i (fst (WriteString (st i) s))
  | OpWriteTo i j =>
      if Nat.eqb i j then upd st i (Reset (st i))
      else
        let '(b, w, _) := WriteTo (st i) (st j) in
        upd (upd st i b) j w
  | OpReset i => upd st i (Reset (st i))
  end.

Definition run_ops (st : store) (ops : list op) : store :=
  fold_left run_op ops st.

(** An operation on text: the runes it writes are values of type [rune],
    the strings it writes are valid UTF-8. *)
Definition text_op (o : op) : Prop :=
  match o with
  | OpWriteRune _ c => is_rune c
  | OpWriteString _ s => utf8.Valid s = true
  | _ => True
  end.

(** The cached count of a buffer is the number of runes of its content. *)
Definition counted (b : runeBuffer) : Prop :=
  Count b = utf8.RuneCount (String b).

End Ops.

(** *** Draining, in the words of the specification *)
Module Drain.
Import Wordwrap.

(** The pieces handed to the sink: each line, with a newline separator
    before every line after the first. *)
Fixpoint separated (firstLine : bool) (lines : list gostring) : list gostring :=
  match lines with
  | [] => []
  | ln :: rest =>
      (if firstLine then [ln] else [newline; ln]) ++ separated false rest
  end.

(** Writing the pieces in order until one write fails: the total the sink
    reported, the error of the failing write, and the sink afterwards. *)
Fixpoint writeAll {W : Type} `{Writer W} (w : W) (n : Z) (pieces : list gostring)
    : Z * option error * W :=
  match pieces with
  | [] => (n, None, w)
  | p :: rest =>
      let '((written, e), w') := Write w p in
      match e with
      | Some _ => (n + written, e, w')
      | None => writeAll w' (n + written) rest
      end
  end.

(** The error the drain reports: that of the failing write, else the read
    failure that ended the lines; end of input is not an error. *)
Definition reported (werr : option error) (fin : ending) : option error :=
  match werr with
  | Some e => Some e
  | None => match fin with AtFailure e => Some e | _ => None end
  end.

(** The lines joined by single newlines. *)
Fixpoint joined (lines : list gostring) : gostring :=
  match lines with
  | [] => []
  | [ln] => ln
  | ln :: rest => ln ++ newline ++ joined rest
  end.

End Drain.

(** A [bytes.Buffer] as a sink: [Write] appends and never fails. *)
#[global] Instance Buffer_Writer : Writer bytes.Buffer :=
  fun w p => ((len p, None), w ++ p).

(** A sink with room for [room] more bytes: a write that does not fit stores
    what fits and fails, as a short write. *)
Record limited := mkLimited {
  room : Z;
  stored : gostring
}.

Definition ErrShortWrite : error := Failure 1.

#[global] Instance limited_Writer : Writer limited :=
  fun w p =>
    if len p <=? room w then
      ((len p, None), {| room := room w - len p; stored := stored w ++ p |})
    else
      ((Z.max 0 (room w), Some ErrShortWrite),
       {| room := 0; stored := stored w ++ firstn (Z.to_nat (room w)) p |}).

(** *** The text of a scanner, as runes *)
Module View.
Import RuneBuffer Wordwrap.

(** The runes of [l] that are not whitespace, in order. *)
Definition nonspace (l : list rune) : list rune :=
  filter (fun c => negb (unicode.IsSpace c)) l.

(** The number of newlines in [l]. *)
Definition newlines (l : list rune) : nat :=
  length (filter (Z.eqb 0x0A) l).

(** The line whose text is the runes [R]: empty when there are none, else
    the prefix followed by their encodings. *)
Definition render (p : gostring) (R : list rune) : gostring :=
  match R with
  | [] => []
  | _ :: _ => p ++ flat_map encoded R
  end.

(** The accumulator [b] holds the runes [X], and counts them. *)
Definition holds (b : runeBuffer) (X : list rune) : Prop :=
  String b = flat_map encoded X /\ Count b = len X.

(** The committed line holds the runes [L] after the prefix; its count
    takes in the prefix. *)
Definition line_holds (p : gostring) (b : runeBuffer) (L : list rune) : Prop :=
  String b = render p L
  /\ Count b = match L with
               | [] => 0
               | _ :: _ => utf8.RuneCount p + len L
               end.

(** A rune the accumulators can hold: a value of type [rune] that is
    neither a tab nor a newline. *)
Definition kept (c : rune) : Prop := is_rune c /\ c <> 0x09 /\ c <> 0x0A.

(** [L] is empty or ends with a rune that is not whitespace. *)
Definition ends_in_word (L : list rune) : Prop :=
  L = [] \/ exists L0 c, L = L0 ++ [c] /\ unicode.IsSpace c = false.

(** The scanner holds the runes [L] in its committed line, the whitespace
    [S] in its pending space and the word [W] in its pending word. *)
Definition view (s : Scanner) (L S W : list rune) : Prop :=
  line_holds (prefix s) (line s) L /\ holds (space s) S /\ holds (word s) W
  /\ Forall (fun c => unicode.IsSpace c = true) S
  /\ Forall (fun c => unicode.IsSpace c = false) W
  /\ Forall kept (L ++ S ++ W)
  /\ ends_in_word L.

(** The pieces of [l] of [n] runes each, the last one shorter when [l] does
    not divide evenly; [cur] is the piece being filled. *)
Fixpoint pieces (n : nat) (cur : list rune) (l : list rune) : list (list rune) :=
  match l with
  | [] => match cur with [] => [] | _ :: _ => [cur] end
  | c :: rest =>
      if Nat.eqb (length cur) n then cur :: pieces n [c] rest
      else pieces n (cur ++ [c]) rest
  end.

(** A scanner in the middle of a run of runes that are not whitespace, of
    which [cur] is the piece it is on and [rest] what is still to read:
    either the piece is short of the limit and sits in the pending word, or
    it has just reached the limit and sits, flushed, in the committed line,
    with a break pending exactly when more runes follow. *)
Definition splitting (s : Scanner) (cur rest : list rune) : Prop :=
  space s = zero /\ err s = None /\ pending (r s) = rest
  /\ ((len cur < limit s /\ line s = zero /\ holds (word s) cur
       /\ needNewline s = false)
      \/ (len cur = limit s /\ String (line s) = render (prefix s) cur
          /\ word s = zero
          /\ needNewline s = match rest with [] => false | _ :: _ => true end)).

End View.

(** * Properties *)

Import RuneBuffer Wordwrap.

(** ** The scanner on the scenarios of the package's tests *)

Example scenario_split_word :
  readLines 9 (configured (reader (str "stupendous")) 4 [] 4)
  = ([str "stup"; str "endo"; str "us"], AtEOF).
Proof. reflexivity. Qed.

Example scenario_double_space :
  readLines 9 (configured (reader (str "foo  bar  baz")) 9 [] 4)
  = ([str "foo  bar"; str "baz"], AtEOF).
Proof. reflexivity. Qed.

Example scenario_tab :
  readLines 9 (configured (reader (str "1" ++ [0x09] ++ str "foo")) 8 [] 4)
  = ([str "1   foo"], AtEOF).
Proof. reflexivity. Qed.

Example scenario_prefix :
  readLines 9 (configured (reader (str "foo bar baz")) 4 (str "--") 4)
  = ([str "--foo"; str "--bar"; str "--baz"], AtEOF).
Proof. reflexivity. Qed.

Example scenario_negative_tab_width :
  readLines 9 (configured (reader (str "a" ++ [0x09] ++ str "b")) 8 [] (-4))
  = ([], AtPanic).
Proof. reflexivity. Qed.

(** ** Width bound *)

(** C1. No returned line should have more code points than the width, a
    longer word being split at the width. The code does not keep to it: with
    width 2 and input " abc" the scanner returns the lines "" and "abc"; the
    second has 3 code points and no prefix. The width check flushes a long
    word only when its count is exactly the limit; here the word passes from
    1 to 2 code points on the turn that returns the pending (empty) line,
    which skips the check, and from then on it is longer than the limit and
    never split. *)
Theorem C1_line_longer_than_width :
  let s := NewScanner (reader (str " abc")) 2 in
  readLines 3 s = ([[]; str "abc"], AtEOF)
  /\ utf8.RuneCount (str "abc") = 3
  /\ limit s = 2
  /\ prefix s = [].
Proof. repeat split. Qed.

(** ** Prefix *)

(** C2. The prefix should not count against the width: the lines with a
    prefix should be the prefix followed by the lines without it, with the
    same breaks. The code does not keep to it: with width 8 the input
    "foo bar" is one line without a prefix and two lines with "--": the
    prefix is written into the committed line, whose count is the one
    compared against the limit. *)
Theorem C2_prefix_moves_the_breaks :
  readLines 3 (configured (reader (str "foo bar")) 8 [] 4)
  = ([str "foo bar"], AtEOF)
  /\ readLines 3 (configured (reader (str "foo bar")) 8 (str "--") 4)
     = ([str "--foo"; str "--bar"], AtEOF).
Proof. split; reflexivity. Qed.

(** ** Frame lemmas: what the parts of the loop leave alone *)

Ltac break_if :=
  match goal with
  | |- context [if ?b then _ else _] => destruct b eqn:?
  | H : context [if ?b then _ else _] |- _ => destruct b eqn:?
  end.

Lemma peekRune_keeps (rs : RuneScanner) : snd (peekRune rs) = rs.
Proof.
  unfold peekRune, ReadRune, UnreadRune.
  destruct rs as [p f]; simpl. destruct p; reflexivity.
Qed.

Lemma peekRune_result (rs : RuneScanner) :
  fst (peekRune rs) =
  match pending rs with
  | [] => (0, 0, Some (final rs))
  | c :: _ => (c, len (utf8.AppendRune c), None)
  end.
Proof.
  unfold peekRune, ReadRune, UnreadRune. destruct (pending rs); reflexivity.
Qed.

Lemma flushWord_frame (s : Scanner) :
  let s1 := snd (flushWord s) in
  r s1 = r s /\ limit s1 = limit s /\ prefix s1 = prefix s
  /\ tabWidth s1 = tabWidth s /\ err s1 = err s
  /\ needNewline s1 = needNewline s /\ skipNextWS s1 = skipNextWS s.
Proof.
  unfold flushWord. repeat break_if; simpl; repeat split; reflexivity.
Qed.

(** The committed text after a flush: with a pending word, the prefix (on
    an empty line), the pending space and the word are appended; with none,
    nothing is, and the pending space stays out. *)
Lemma flushWord_line (s : Scanner) :
  String (line (snd (flushWord s))) =
  if 0 <? Count (word s) then
    String (line s) ++ (if Count (line s) =? 0 then prefix s else [])
    ++ String (space s) ++ String (word s)
  else String (line s).
Proof.
  unfold flushWord, String.
  repeat break_if; simpl; try reflexivity; try discriminate;
    now rewrite <- ?app_assoc.
Qed.

Lemma processChar_frame (c : rune) (s s' : Scanner) :
  processChar c s = Next s' \/ processChar c s = Skip s' ->
  r s' = r s /\ limit s' = limit s /\ prefix s' = prefix s
  /\ tabWidth s' = tabWidth s /\ err s' = err s.
Proof.
  pose proof (flushWord_frame s) as F. simpl in F.
  unfold processChar. unfold Repeat.
  intros [H | H]; repeat break_if; inversion H; subst; simpl; intuition congruence.
Qed.

Lemma processChar_exit (c : rune) (s : Scanner) (o : outcome) :
  processChar c s = Exit o ->
  o = Panicked \/
  exists ret s', o = Returned ret None s' /\ r s' = r s /\ err s' = err s
                 /\ limit s' = limit s /\ prefix s' = prefix s
                 /\ tabWidth s' = tabWidth s.
Proof.
  pose proof (flushWord_frame s) as F. simpl in F.
  unfold processChar, Repeat.
  intros H; repeat break_if; inversion H; subst; auto; right;
    eexists; eexists; (split; [reflexivity |]); simpl; intuition congruence.
Qed.

Lemma widthCheck_frame (s s' : Scanner) :
  widthCheck s = Next s' \/ widthCheck s = Skip s' ->
  r s' = r s /\ limit s' = limit s /\ prefix s' = prefix s
  /\ tabWidth s' = tabWidth s /\ err s' = err s.
Proof.
  unfold widthCheck.
  pose proof (peekRune_keeps (r s)) as K.
  destruct (peekRune (r s)) as [[[next nextSize] e] rs]. simpl in K. subst rs.
  pose proof (flushWord_frame (set_r (r s) s)) as F. simpl in F.
  intros [H | H]; repeat break_if; inversion H; subst; simpl; intuition congruence.
Qed.

Lemma widthCheck_exit (s : Scanner) (o : outcome) :
  widthCheck s = Exit o ->
  exists s', o = Returned [] (Some (final (r s))) s'
             /\ final (r s) <> EOF /\ pending (r s) = []
             /\ err s' = Some (final (r s)) /\ r s' = r s
             /\ limit s' = limit s /\ prefix s' = prefix s
             /\ tabWidth s' = tabWidth s.
Proof.
  unfold widthCheck.
  pose proof (peekRune_keeps (r s)) as K.
  pose proof (peekRune_result (r s)) as P.
  destruct (peekRune (r s)) as [[[next nextSize] e] rs]. simpl in K, P. subst rs.
  intros H. repeat break_if; inversion H; subst.
  destruct (pending (r s)); inversion P; subst; simpl in *; try discriminate.
  destruct (final (r s)); try discriminate.
  eexists; repeat split; try reflexivity. discriminate.
Qed.

(** ** The loop of ReadLine *)

(** What a call that enters the loop can return: a failure of the source,
    verbatim and with no text, which makes the scanner terminal; or a line,
    after which the scanner is either live with fewer runes to read or
    terminal at the end of input. *)
Lemma loop_returns (input : list rune) : forall s ret e s',
  pending (r s) = input -> err s = None ->
  loop input s = Returned ret e s' ->
  limit s' = limit s /\ prefix s' = prefix s /\ tabWidth s' = tabWidth s
  /\ final (r s') = final (r s)
  /\ match e with
     | Some x => ret = [] /\ x = final (r s) /\ x <> EOF /\ err s' = Some x
     | None =>
         (err s' = None /\ (length (pending (r s')) < length input)%nat)
         \/ (err s' = Some EOF /\ final (r s) = EOF /\ pending (r s') = [])
     end.
Proof.
  induction input as [| c rest IH]; intros s ret e s' Hp He H; simpl in H.
  - pose proof (flushWord_frame s) as F. simpl in F.
    destruct F as (F1 & F2 & F3 & F4 & F5 & _).
    destruct (final (r s)) eqn:Hf; inversion H; subst; simpl;
      rewrite ?F1, ?F2, ?F3, ?F4, ?Hf.
    + repeat split. right. rewrite Hp. repeat split.
    + repeat split. discriminate.
  - set (s0 := set_r {| pending := rest; final := final (r s) |} s) in H.
    assert (H0 : pending (r s0) = rest /\ err s0 = None
                 /\ final (r s0) = final (r s) /\ limit s0 = limit s
                 /\ prefix s0 = prefix s /\ tabWidth s0 = tabWidth s)
      by (subst s0; simpl; repeat split; auto).
    clearbody s0. destruct H0 as (P0 & E0 & F0 & L0 & X0 & T0).
    assert (step : forall s1,
               r s1 = r s0 /\ limit s1 = limit s0 /\ prefix s1 = prefix s0
               /\ tabWidth s1 = tabWidth s0 /\ err s1 = err s0 ->
               loop rest s1 = Returned ret e s' ->
               limit s' = limit s /\ prefix s' = prefix s
               /\ tabWidth s' = tabWidth s /\ final (r s') = final (r s)
               /\ match e with
                  | Some x => ret = [] /\ x = final (r s) /\ x <> EOF
                              /\ err s' = Some x
                  | None =>
                      (err s' = None
                       /\ (length (pending (r s')) < length (c :: rest))%nat)
                      \/ (err s' = Some EOF /\ final (r s) = EOF
                          /\ pending (r s') = [])
                  end).
    { intros s1 (A1 & A2 & A3 & A4 & A5) Hl.
      destruct (IH s1 ret e s') as (C1 & C2 & C3 & C4 & C5); try congruence.
      rewrite A1 in C4.
      repeat split; try congruence.
      destruct e as [x |].
      - rewrite A1, F0 in C5. exact C5.
      - rewrite A1, F0 in C5. simpl.
        destruct C5 as [[? ?] | ?]; [left; split; [assumption | lia] | right; assumption]. }
    destruct (processChar c s0) as [s1 | s1 | o] eqn:Hc.
    + pose proof (processChar_frame c s0 s1 (or_introl Hc)) as A.
      destruct (widthCheck s1) as [s2 | s2 | o] eqn:Hw.
      * pose proof (widthCheck_frame s1 s2 (or_introl Hw)) as B.
        apply (step s2); [intuition congruence | assumption].
      * pose proof (widthCheck_frame s1 s2 (or_intror Hw)) as B.
        apply (step s2); [intuition congruence | assumption].
      * destruct (widthCheck_exit s1 o Hw) as (s2 & E1 & E2 & E3 & E4 & E5 & E6).
        rewrite E1 in H. inversion H; subst ret e s2.
        destruct A as (A1 & A2 & A3 & A4 & A5).
        destruct E6 as (E6 & E7 & E8).
        rewrite A1, F0 in *.
        repeat split; congruence.
    + pose proof (processChar_frame c s0 s1 (or_intror Hc)) as A.
      apply (step s1); assumption.
    + destruct (processChar_exit c s0 o Hc)
        as [-> | (ret0 & s1 & -> & A1 & A2 & A3 & A4 & A5)]; [discriminate |].
      inversion H; subst ret0 e s1.
      repeat split; try congruence.
      left. split; [congruence |]. rewrite A1, P0. simpl. lia.
Qed.

(** ** Terminal outcomes *)

Lemma ReadLine_terminal (s : Scanner) (x : error) :
  err s = Some x -> ReadLine s = Returned [] (Some x) s.
Proof. unfold ReadLine. now intros ->. Qed.


Lemma ReadLine_live (s : Scanner) (ret : gostring) (e : option error) (s' : Scanner) :
  err s = None -> ReadLine s = Returned ret e s' ->
  limit s' = limit s /\ prefix s' = prefix s /\ tabWidth s' = tabWidth s
  /\ final (r s') = final (r s)
  /\ match e with
     | Some x => ret = [] /\ x = final (r s) /\ x <> EOF /\ err s' = Some x
     | None =>
         (err s' = None
          /\ (length (pending (r s')) < length (pending (r s)))%nat)
         \/ (err s' = Some EOF /\ final (r s) = EOF /\ pending (r s') = [])
     end.
Proof.
  intros He H. unfold ReadLine in H. rewrite He in H.
  now apply (loop_returns (pending (r s)) s ret e s').
Qed.



(** ** Newlines *)

(** C5. When the next rune of a live scanner is a newline, ReadLine returns
    at once, with a nil error, the committed line after the pending word has
    been flushed into it: the old committed text followed, when a word is
    pending, by the prefix (on an empty line), the pending space and the
    word; pending space with no word after it is left out. The call leaves
    the committed line and the pending space empty and skipNextWS cleared.
    With width 8 and no prefix, "foo\n\n\nbar\n" gives the five lines "foo",
    "", "", "bar", "". *)
Theorem C5_newline_ends_the_line :
  forall s rest,
    err s = None -> pending (r s) = 0x0A :: rest ->
    (exists s',
        ReadLine s =
          Returned
            (if 0 <? Count (word s) then
               String (line s) ++ (if Count (line s) =? 0 then prefix s else [])
               ++ String (space s) ++ String (word s)
             else String (line s))
            None s'
        /\ line s' = zero /\ space s' = zero /\ skipNextWS s' = false
        /\ err s' = None /\ pending (r s') = rest)
    /\ readLines 6 (configured
                      (reader (str "foo" ++ [0x0A; 0x0A; 0x0A] ++ str "bar" ++ [0x0A]))
                      8 [] 4)
       = ([str "foo"; []; []; str "bar"; []], AtEOF).
Proof.
  intros s rest He Hp. split; [| reflexivity].
  unfold ReadLine. rewrite He, Hp. cbn [loop].
  remember (set_r {| pending := rest; final := final (r s) |} s) as s0 eqn:Hs0.
  assert (Hl : processChar 10 s0 =
               let s1 := snd (flushWord s0) in
               Exit (Returned (String (line s1)) None
                       (set_space (Reset (space s1))
                          (set_line (Reset (line s1)) (set_skipNextWS false s1)))))
    by reflexivity.
  rewrite Hl. cbv zeta. clear Hl.
  pose proof (flushWord_frame s0) as (F1 & _ & _ & _ & F5 & _).
  pose proof (flushWord_line s0) as FL.
  assert (A : err s0 = None /\ pending (r s0) = rest /\ line s0 = line s
              /\ word s0 = word s /\ space s0 = space s /\ prefix s0 = prefix s)
    by (subst s0; repeat split; assumption).
  destruct A as (A1 & A2 & A3 & A4 & A5 & A6).
  rewrite A3, A4, A5, A6 in FL.
  eexists. split; [rewrite FL; reflexivity |].
  unfold set_space, set_line, set_skipNextWS; simpl.
  repeat split; congruence.
Qed.

Lemma C5_newline_ends_the_line_witness :
  let s := set_space {| buf := str "  "; runeCount := 2 |}
             (set_line {| buf := str "foo"; runeCount := 3 |}
                (NewScanner (reader (0x0A :: str "bar")) 8)) in
  exists s', ReadLine s = Returned (str "foo") None s'
             /\ line s' = zero /\ space s' = zero /\ skipNextWS s' = false
             /\ err s' = None /\ pending (r s') = str "bar".
Proof.
  exact (proj1 (C5_newline_ends_the_line
                  (set_space {| buf := str "  "; runeCount := 2 |}
                     (set_line {| buf := str "foo"; runeCount := 3 |}
                        (NewScanner (reader (0x0A :: str "bar")) 8)))
                  (str "bar") eq_refl eq_refl)).
Defined.

(** ** Counting runes: first facts *)

Lemma RuneCount_from_nonneg (p : list byte) : forall k, 0 <= utf8.RuneCount_from k p.
Proof.
  induction p as [| c rest IH]; intros k; cbn [utf8.RuneCount_from]; [lia |].
  destruct k; [| apply IH].
  specialize (IH (Z.to_nat (utf8.advance (c :: rest) - 1))). lia.
Qed.

Lemma RuneCount_nonneg (p : list byte) : 0 <= utf8.RuneCount p.
Proof. apply RuneCount_from_nonneg. Qed.

Lemma RuneCount_spaces (n : nat) : utf8.RuneCount (repeat 0x20 n) = Z.of_nat n.
Proof.
  unfold utf8.RuneCount. induction n as [| n IH]; [reflexivity |].
  change (repeat 32 (S n)) with (32 :: repeat 32 n).
  cbn [utf8.RuneCount_from].
  replace (Z.to_nat (utf8.advance (32 :: repeat 32 n) - 1)) with O by reflexivity.
  rewrite IH. lia.
Qed.

Lemma firstn_len {A : Type} (l : list A) : firstn (Z.to_nat (len l)) l = l.
Proof. unfold len. rewrite Nat2Z.id. apply firstn_all. Qed.

Lemma WriteString_spec (b : runeBuffer) (s : gostring) :
  WriteString b s =
  ({| buf := buf b ++ s; runeCount := runeCount b + utf8.RuneCount s |}, len s).
Proof. unfold WriteString, bytes.WriteString. now rewrite firstn_len. Qed.

(** The committed count after a flush. *)
Lemma flushWord_line_count (s : Scanner) :
  Count (line (snd (flushWord s))) =
  if 0 <? Count (word s) then
    Count (line s)
    + (if Count (line s) =? 0 then utf8.RuneCount (prefix s) else 0)
    + Count (space s) + Count (word s)
  else Count (line s).
Proof.
  unfold flushWord. destruct (0 <? Count (word s)); [| reflexivity].
  destruct (Count (line s) =? 0) eqn:E.
  - rewrite WriteString_spec. simpl. unfold Count. lia.
  - simpl. unfold Count. lia.
Qed.


Lemma flushWord_space (s : Scanner) :
  space (snd (flushWord s)) = if 0 <? Count (word s) then zero else space s.
Proof.
  unfold flushWord. destruct (0 <? Count (word s)); [| reflexivity].
  destruct (Count (line s) =? 0); reflexivity.
Qed.

Lemma flushWord_word (s : Scanner) :
  word (snd (flushWord s)) = if 0 <? Count (word s) then zero else word s.
Proof.
  unfold flushWord. destruct (0 <? Count (word s)); [| reflexivity].
  destruct (Count (line s) =? 0); reflexivity.
Qed.

(** ** Tab expansion *)

(** C4. Take a scanner with a non-negative tab width whose counts are not
    negative and which is not skipping whitespace. Reading a tab first
    flushes the pending word; then exactly [n] spaces are appended to the
    pending space (content and count), where [n] is
    tabWidth - (committedCount mod tabWidth) for the count of the committed
    line at that point, and 0 when the tab width is 0. Nothing fails: the
    turn goes on to the width check. *)
Theorem C4_tab_expansion :
  forall s,
    0 <= tabWidth s -> 0 <= Count (line s) -> 0 <= Count (space s) ->
    skipNextWS s = false ->
    let s1 := snd (flushWord s) in
    let n := if tabWidth s =? 0 then 0
             else tabWidth s - Count (line s1) mod tabWidth s in
    0 <= n <= tabWidth s
    /\ (tabWidth s = 0 -> n = 0)
    /\ (0 < tabWidth s -> (Count (line s1) + n) mod tabWidth s = 0)
    /\ processChar 0x09 s =
       Next (set_space {| buf := String (space s1) ++ repeat 0x20 (Z.to_nat n);
                          runeCount := Count (space s1) + n |} s1).
Proof.
  intros s Htw Hl Hsp Hskip s1 n.
  pose proof (flushWord_frame s) as (_ & _ & _ & F4 & _ & _ & F7). fold s1 in F4, F7.
  assert (Hl1 : 0 <= Count (line s1)).
  { subst s1. rewrite flushWord_line_count.
    pose proof (RuneCount_nonneg (prefix s)).
    repeat break_if; lia. }
  assert (Hn : 0 <= n <= tabWidth s).
  { subst n. destruct (Z.eqb_spec (tabWidth s) 0) as [E | E]; [lia |].
    pose proof (Z.mod_pos_bound (Count (line s1)) (tabWidth s)). lia. }
  split; [exact Hn |]. split; [| split].
  - intros E. subst n. now rewrite E.
  - intros Hpos. subst n. destruct (Z.eqb_spec (tabWidth s) 0) as [E | E]; [lia |].
    replace (Count (line s1) + (tabWidth s - Count (line s1) mod tabWidth s))
      with (Count (line s1) - Count (line s1) mod tabWidth s + 1 * tabWidth s) by lia.
    rewrite Z.mod_add by lia.
    rewrite Zminus_mod, Zmod_mod, Z.sub_diag. now apply Z.mod_0_l.
  - unfold processChar. change (unicode.IsSpace 9) with true.
    change (9 =? 10) with false. cbv iota. fold s1. rewrite F7, Hskip, F4.
    change (9 =? 9) with true. cbv iota.
    assert (Hrem : (if tabWidth s =? 0 then 0
                    else tabWidth s - Z.rem (Count (line s1)) (tabWidth s)) = n).
    { subst n. destruct (Z.eqb_spec (tabWidth s) 0) as [E | E]; [reflexivity |].
      rewrite Z.rem_mod_nonneg by lia. reflexivity. }
    rewrite Hrem. unfold Repeat.
    destruct (Z.ltb_spec n 0) as [? | _]; [lia |].
    rewrite WriteString_spec. cbn [fst].
    rewrite RuneCount_spaces, Z2Nat.id by lia. reflexivity.
Qed.

Lemma C4_tab_expansion_witness :
  let s := set_word {| buf := str "1"; runeCount := 1 |}
             (NewScanner (reader (0x09 :: str "foo")) 8) in
  processChar 0x09 s =
  Next (set_space {| buf := str "   "; runeCount := 3 |}
          (set_word zero (set_line {| buf := str "1"; runeCount := 1 |} s))).
Proof.
  exact (proj2 (proj2 (proj2 (C4_tab_expansion
           (set_word {| buf := str "1"; runeCount := 1 |}
              (NewScanner (reader (0x09 :: str "foo")) 8))
           ltac:(simpl; lia) ltac:(simpl; lia) ltac:(simpl; lia) eq_refl)))).
Defined.

(** ** The sum of the three counts *)

Lemma WriteRune_spec (b : runeBuffer) (c : rune) :
  fst (WriteRune b c) = {| buf := buf b ++ encoded c; runeCount := runeCount b + 1 |}.
Proof.
  unfold WriteRune, encoded, bytes.WriteRune.
  destruct (uint32 c <? utf8.RuneSelf); reflexivity.
Qed.




(** ** Draining to a sink *)

Lemma processChar_panic (c : rune) (s : Scanner) :
  0 <= tabWidth s -> processChar c s <> Exit Panicked.
Proof.
  intros Htw H. unfold processChar in H.
  pose proof (flushWord_frame s) as (_ & _ & _ & F4 & _).
  set (s1 := snd (flushWord s)) in *.
  destruct (unicode.IsSpace c).
  - destruct (c =? 10); [discriminate |].
    destruct (skipNextWS s1); [discriminate |].
    destruct (c =? 9); [| discriminate].
    unfold Repeat in H. rewrite F4 in H.
    destruct (Z.ltb_spec
                (if tabWidth s =? 0 then 0
                 else tabWidth s - Z.rem (Count (line s1)) (tabWidth s)) 0)
      as [Hneg | _]; [| discriminate].
    destruct (Z.eqb_spec (tabWidth s) 0) as [E | E]; [lia |].
    pose proof (Z.rem_bound_abs (Count (line s1)) (tabWidth s)).
    lia.
  - destruct (needNewline _); discriminate.
Qed.

Lemma loop_no_panic (input : list rune) : forall s,
  0 <= tabWidth s -> loop input s <> Panicked.
Proof.
  induction input as [| c rest IH]; intros s Htw; cbn [loop].
  - destruct (final (r s)); discriminate.
  - set (s0 := set_r _ s).
    assert (H0 : 0 <= tabWidth s0) by exact Htw. clearbody s0.
    destruct (processChar c s0) as [s1 | s1 | o] eqn:Hc.
    + destruct (processChar_frame c s0 s1 (or_introl Hc)) as (_ & _ & _ & A4 & _).
      destruct (widthCheck s1) as [s2 | s2 | o] eqn:Hw.
      * destruct (widthCheck_frame s1 s2 (or_introl Hw)) as (_ & _ & _ & B4 & _).
        apply IH. lia.
      * destruct (widthCheck_frame s1 s2 (or_intror Hw)) as (_ & _ & _ & B4 & _).
        apply IH. lia.
      * destruct (widthCheck_exit s1 o Hw) as (s2 & -> & _). discriminate.
    + destruct (processChar_frame c s0 s1 (or_intror Hc)) as (_ & _ & _ & A4 & _).
      apply IH. lia.
    + intros ->. now apply (processChar_panic c s0).
Qed.

Lemma ReadLine_no_panic (s : Scanner) : 0 <= tabWidth s -> ReadLine s <> Panicked.
Proof.
  intros Htw. unfold ReadLine. destruct (err s); [discriminate |].
  now apply loop_no_panic.
Qed.

(** A call that returns a line comes from a live scanner, keeps the
    configuration and brings the scanner closer to its end. *)
Lemma ReadLine_line (s : Scanner) (ln : gostring) (s' : Scanner) :
  ReadLine s = Returned ln None s' ->
  tabWidth s' = tabWidth s /\ limit s' = limit s /\ prefix s' = prefix s
  /\ (callsLeft s' < callsLeft s)%nat.
Proof.
  intros H. destruct (err s) as [x |] eqn:He.
  - rewrite (ReadLine_terminal s x He) in H. discriminate.
  - destruct (ReadLine_live s ln None s' He H) as (L & P & T & _ & D).
    repeat split; try assumption.
    unfold callsLeft. rewrite He.
    destruct D as [[-> D] | (-> & _)]; lia.
Qed.

Lemma writeAll_app {W : Type} `{Writer W} (p q : list gostring) : forall (w : W) (n : Z),
  Drain.writeAll w n (p ++ q) =
  match Drain.writeAll w n p with
  | (n', None, w') => Drain.writeAll w' n' q
  | failed => failed
  end.
Proof.
  induction p as [| x p IH]; intros w n; simpl; [reflexivity |].
  destruct (Write w x) as [[written e] w1]. destruct e; [reflexivity | apply IH].
Qed.

Lemma WriteTo_loop_spec {W : Type} `{Writer W} (fuel : nat) :
  forall (s : Scanner) (w : W) (n : Z) (firstLine : bool) lines fin n' werr w',
    0 <= tabWidth s -> (callsLeft s < fuel)%nat ->
    readLines fuel s = (lines, fin) ->
    Drain.writeAll w n (Drain.separated firstLine lines) = (n', werr, w') ->
    (fin = AtEOF \/ exists i, fin = AtFailure (Failure i))
    /\ exists s',
         WriteTo_loop fuel s w n firstLine
         = Some (Drained n' (Drain.reported werr fin) s' w').
Proof.
  induction fuel as [| fuel IH];
    intros s w n firstLine lines fin n' werr w' Htw Hfuel Hread Hwrite; [lia |].
  cbn [readLines] in Hread. cbn [WriteTo_loop].
  destruct (ReadLine s) as [ln e s1 |] eqn:Hcall;
    [| now contradiction (ReadLine_no_panic s Htw)].
  destruct e as [[| i] |].
  - inversion Hread; subst. inversion Hwrite; subst.
    split; [now left |]. eexists; reflexivity.
  - inversion Hread; subst. inversion Hwrite; subst.
    split; [right; now exists i |]. eexists; reflexivity.
  - destruct (ReadLine_line s ln s1 Hcall) as (T & _ & _ & D).
    destruct (readLines fuel s1) as [lns fin1] eqn:Hrest.
    inversion Hread; subst lines fin. clear Hread.
    cbn [Drain.separated] in Hwrite. rewrite writeAll_app in Hwrite.
    destruct firstLine.
    + cbn [Drain.writeAll] in Hwrite.
      destruct (Write w ln) as [[written e] w2].
      destruct e as [e |].
      * inversion Hwrite; subst.
        split; [| eexists; reflexivity].
        destruct (Drain.writeAll w' 0 (Drain.separated false lns)) as [[n0 e0] w0] eqn:Hw0.
        apply (IH s1 w' 0 false lns fin1 n0 e0 w0); [lia | lia | assumption | assumption].
      * apply (IH s1 w2 (n + written) false lns fin1 n' werr w');
          [lia | lia | assumption | assumption].
    + cbn [Drain.writeAll] in Hwrite.
      destruct (Write w newline) as [[written0 e0] w1].
      destruct e0 as [e0 |].
      * inversion Hwrite; subst.
        split; [| eexists; reflexivity].
        destruct (Drain.writeAll w' 0 (Drain.separated false lns)) as [[n0 e1] w0] eqn:Hw0.
        apply (IH s1 w' 0 false lns fin1 n0 e1 w0); [lia | lia | assumption | assumption].
      * destruct (Write w1 ln) as [[written e] w2].
        destruct e as [e |].
        -- inversion Hwrite; subst.
           split; [| eexists; reflexivity].
           destruct (Drain.writeAll w' 0 (Drain.separated false lns)) as [[n0 e1] w0] eqn:Hw0.
           apply (IH s1 w' 0 false lns fin1 n0 e1 w0); [lia | lia | assumption | assumption].
        -- apply (IH s1 w2 (n + written0 + written) false lns fin1 n' werr w');
             [lia | lia | assumption | assumption].
Qed.

Lemma writeAll_buffer (pieces : list gostring) : forall (b : bytes.Buffer) (n : Z),
  Drain.writeAll b n pieces = (n + len (concat pieces), None, b ++ concat pieces).
Proof.
  induction pieces as [| p rest IH]; intros b n; simpl.
  - now rewrite Z.add_0_r, app_nil_r.
  - unfold Write, Buffer_Writer. rewrite IH. unfold len.
    rewrite length_app, Nat2Z.inj_add, <- app_assoc.
    f_equal. f_equal. lia.
Qed.

Lemma separated_joined (rest : list gostring) : forall ln,
  Drain.joined (ln :: rest) = ln ++ concat (Drain.separated false rest).
Proof.
  induction rest as [| x rest IH]; intros ln.
  - simpl. now rewrite app_nil_r.
  - change (Drain.joined (ln :: x :: rest))
      with (ln ++ newline ++ Drain.joined (x :: rest)).
    rewrite IH. reflexivity.
Qed.

Lemma separated_concat (lines : list gostring) :
  concat (Drain.separated true lines) = Drain.joined lines.
Proof.
  destruct lines as [| ln rest]; [reflexivity |].
  rewrite separated_joined. reflexivity.
Qed.

(** C9. On a scanner with a non-negative tab width, let [lines] be the lines
    ReadLine returns up to its first error. WriteTo hands the sink those
    lines in order, a newline before every line after the first, up to the
    first write that fails. It returns the sum of the counts the sink
    reported, together with the error of the failing write if there is one,
    else the read failure that ended the lines if there is one, else nil:
    the end of input is a normal stop. Into a [bytes.Buffer], which never
    fails, it appends exactly the lines joined by single newlines and
    returns their length. *)
Theorem C9_WriteTo_drains_the_lines :
  forall (W : Type) (Wr : Writer W) (s : Scanner) (w : W) lines fin n werr w',
    0 <= tabWidth s ->
    readLines (length (pending (r s)) + 2) s = (lines, fin) ->
    Drain.writeAll w 0 (Drain.separated true lines) = (n, werr, w') ->
    (fin = AtEOF \/ exists i, fin = AtFailure (Failure i))
    /\ (exists s', WriteTo s w = Some (Drained n (Drain.reported werr fin) s' w'))
    /\ (forall b : bytes.Buffer,
          exists s', WriteTo s b
                     = Some (Drained (len (Drain.joined lines))
                               (Drain.reported None fin) s'
                               (b ++ Drain.joined lines))).
Proof.
  intros W Wr s w lines fin n werr w' Htw Hread Hwrite.
  assert (Hfuel : (callsLeft s < length (pending (r s)) + 2)%nat)
    by (unfold callsLeft; destruct (err s); lia).
  destruct (WriteTo_loop_spec _ s w 0 true lines fin n werr w'
              Htw Hfuel Hread Hwrite) as [Hfin Hdrain].
  split; [exact Hfin |]. split; [exact Hdrain |].
  intros b.
  pose proof (writeAll_buffer (Drain.separated true lines) b 0) as Hb.
  rewrite separated_concat, Z.add_0_l in Hb.
  exact (proj2 (WriteTo_loop_spec _ s b 0 true lines fin _ _ _
                  Htw Hfuel Hread Hb)).
Qed.

Lemma C9_WriteTo_drains_the_lines_witness :
  let s := configured (reader (str "foo bar baz")) 4 (str "--") 4 in
  (exists s', WriteTo s (mkLimited 8 [])
              = Some (Drained 8 (Some ErrShortWrite) s'
                        {| room := 0; stored := str "--foo" ++ [0x0A] ++ str "--" |}))
  /\ (exists s', WriteTo s ([] : bytes.Buffer)
                 = Some (Drained 17 None s'
                           (str "--foo" ++ [0x0A] ++ str "--bar" ++ [0x0A] ++ str "--baz"))).
Proof.
  pose proof (C9_WriteTo_drains_the_lines limited _
                (configured (reader (str "foo bar baz")) 4 (str "--") 4)
                (mkLimited 8 [])
                [str "--foo"; str "--bar"; str "--baz"] AtEOF
                8 (Some ErrShortWrite)
                {| room := 0; stored := str "--foo" ++ [0x0A] ++ str "--" |}
                ltac:(simpl; lia) eq_refl eq_refl) as (_ & A & B).
  split; [exact A | exact (B [])].
Defined.

(** ** UTF-8: the encoder in arithmetic *)

Lemma range_check (P : Z -> bool) (n : nat) :
  forallb P (map Z.of_nat (seq 0 n)) = true ->
  forall y, 0 <= y < Z.of_nat n -> P y = true.
Proof.
  intros H y Hy. rewrite forallb_forall in H. apply H.
  apply in_map_iff. exists (Z.to_nat y). split; [lia |].
  apply in_seq. lia.
Qed.

Lemma lor_tx (y : Z) : 0 <= y < 64 -> Z.lor 0x80 y = 0x80 + y.
Proof.
  intros Hy. apply Z.eqb_eq.
  now apply (range_check (fun y => Z.lor 0x80 y =? 0x80 + y) 64).
Qed.

Lemma lor_t2 (y : Z) : 0 <= y < 32 -> Z.lor 0xC0 y = 0xC0 + y.
Proof.
  intros Hy. apply Z.eqb_eq.
  now apply (range_check (fun y => Z.lor 0xC0 y =? 0xC0 + y) 32).
Qed.

Lemma lor_t3 (y : Z) : 0 <= y < 16 -> Z.lor 0xE0 y = 0xE0 + y.
Proof.
  intros Hy. apply Z.eqb_eq.
  now apply (range_check (fun y => Z.lor 0xE0 y =? 0xE0 + y) 16).
Qed.

Lemma lor_t4 (y : Z) : 0 <= y < 8 -> Z.lor 0xF0 y = 0xF0 + y.
Proof.
  intros Hy. apply Z.eqb_eq.
  now apply (range_check (fun y => Z.lor 0xF0 y =? 0xF0 + y) 8).
Qed.

Lemma land_maskx (x : Z) : Z.land x 0x3F = x mod 64.
Proof. change 63 with (Z.ones 6). now rewrite Z.land_ones by lia. Qed.

(** A continuation byte of the encoder: [tx | byte(v >> k) & maskx]. *)
Lemma cont_byte (v k : Z) :
  0 <= k ->
  Z.lor utf8.tx (Z.land (to_byte (Z.shiftr v k)) utf8.maskx)
  = 0x80 + (v / 2 ^ k) mod 64.
Proof.
  intros Hk. unfold utf8.tx, utf8.maskx, to_byte.
  rewrite land_maskx, Z.shiftr_div_pow2 by exact Hk.
  rewrite lor_tx by (apply Z.mod_pos_bound; lia).
  f_equal. generalize (v / 2 ^ k). intros x.
  pose proof (Z.mod_pos_bound x 256). pose proof (Z.mod_pos_bound x 64).
  pose proof (Z.mod_pos_bound (x mod 256) 64).
  pose proof (Z.div_mod x 256). pose proof (Z.div_mod x 64).
  pose proof (Z.div_mod (x mod 256) 64). lia.
Qed.

Lemma cont_byte0 (v : Z) :
  Z.lor utf8.tx (Z.land (to_byte v) utf8.maskx) = 0x80 + v mod 64.
Proof.
  pose proof (cont_byte v 0) as H. rewrite Z.shiftr_0_r in H.
  rewrite H by lia. now rewrite Z.div_1_r.
Qed.

Lemma lead2 (v : Z) :
  0 <= v < 0x800 -> Z.lor utf8.t2 (to_byte (Z.shiftr v 6)) = 0xC0 + v / 64.
Proof.
  intros Hv. unfold utf8.t2, to_byte. rewrite Z.shiftr_div_pow2 by lia.
  change (2 ^ 6) with 64.
  assert (0 <= v / 64 < 32) by (split; [apply Z.div_pos | apply Z.div_lt_upper_bound]; lia).
  rewrite Z.mod_small by lia. now apply lor_t2.
Qed.

Lemma lead3 (v : Z) :
  0 <= v < 0x10000 -> Z.lor utf8.t3 (to_byte (Z.shiftr v 12)) = 0xE0 + v / 4096.
Proof.
  intros Hv. unfold utf8.t3, to_byte. rewrite Z.shiftr_div_pow2 by lia.
  change (2 ^ 12) with 4096.
  assert (0 <= v / 4096 < 16) by (split; [apply Z.div_pos | apply Z.div_lt_upper_bound]; lia).
  rewrite Z.mod_small by lia. now apply lor_t3.
Qed.

Lemma lead4 (v : Z) :
  0 <= v < 0x200000 -> Z.lor utf8.t4 (to_byte (Z.shiftr v 18)) = 0xF0 + v / 262144.
Proof.
  intros Hv. unfold utf8.t4, to_byte. rewrite Z.shiftr_div_pow2 by lia.
  change (2 ^ 18) with 262144.
  assert (0 <= v / 262144 < 8) by (split; [apply Z.div_pos | apply Z.div_lt_upper_bound]; lia).
  rewrite Z.mod_small by lia. now apply lor_t4.
Qed.

Lemma uint32_neg (c : Z) : -2147483648 <= c < 0 -> uint32 c = c + 4294967296.
Proof.
  intros Hc. unfold uint32. symmetry.
  apply (Z.mod_unique_pos c 4294967296 (-1)); lia.
Qed.

Lemma uint32_pos (c : Z) : 0 <= c < 4294967296 -> uint32 c = c.
Proof. intros Hc. unfold uint32. now apply Z.mod_small. Qed.

Ltac zcmp :=
  repeat match goal with
    | |- context [?a <? ?b] => destruct (Z.ltb_spec a b); try (exfalso; lia)
    | |- context [?a <=? ?b] => destruct (Z.leb_spec a b); try (exfalso; lia)
    | |- context [?a =? ?b] => destruct (Z.eqb_spec a b); try (exfalso; lia)
    end.

Lemma AppendRune_encoded (c : rune) : utf8.AppendRune c = encoded c.
Proof.
  unfold encoded, bytes.WriteRune, utf8.RuneSelf.
  destruct (Z.ltb_spec (uint32 c) 128) as [Hlt | Hge]; [| reflexivity].
  unfold utf8.AppendRune, utf8.rune1Max.
  destruct (Z.leb_spec (uint32 c) 127); [reflexivity | lia].
Qed.

Lemma scalar_is_scalar (c : rune) : is_scalar (scalar c).
Proof.
  unfold scalar, is_scalar, utf8.MaxRune, utf8.surrogateMin, utf8.surrogateMax,
    utf8.RuneError.
  zcmp; cbn [orb andb]; lia.
Qed.

Lemma scalar_cases (c : rune) :
  (is_scalar c /\ scalar c = c) \/ (~ is_scalar c /\ scalar c = 0xFFFD).
Proof.
  unfold scalar, is_scalar, utf8.MaxRune, utf8.surrogateMin, utf8.surrogateMax,
    utf8.RuneError.
  zcmp; cbn [orb andb]; (left; split; [lia | reflexivity])
                        || (right; split; [lia | reflexivity]).
Qed.

(** The encoder writes the encoding of [scalar c]. *)
Lemma encoded_arith (c : rune) : is_rune c -> encoded c = enc_arith (scalar c).
Proof.
  intros [Hlo Hhi]. rewrite <- AppendRune_encoded.
  unfold utf8.AppendRune, utf8.appendRuneNonASCII.
  destruct (scalar_cases c) as [[[Hr Hs] ->] | [Hn ->]].
  - rewrite uint32_pos by lia.
    unfold enc_arith, utf8.rune1Max, utf8.rune2Max, utf8.rune3Max,
      utf8.MaxRune, utf8.surrogateMin, utf8.surrogateMax.
    zcmp; cbn [orb andb].
    + unfold to_byte. now rewrite Z.mod_small by lia.
    + rewrite lead2, cont_byte0 by lia. reflexivity.
    + rewrite lead3, (cont_byte c 6), cont_byte0 by lia. reflexivity.
    + rewrite lead3, (cont_byte c 6), cont_byte0 by lia. reflexivity.
    + rewrite lead4, (cont_byte c 12), (cont_byte c 6), cont_byte0 by lia.
      reflexivity.
  - unfold is_scalar in Hn.
    destruct (Z.ltb_spec c 0) as [Hneg | Hpos].
    + rewrite uint32_neg by lia.
      unfold utf8.rune1Max, utf8.rune2Max, utf8.rune3Max, utf8.MaxRune,
        utf8.surrogateMin, utf8.surrogateMax.
      zcmp; reflexivity.
    + rewrite uint32_pos by lia.
      unfold utf8.rune1Max, utf8.rune2Max, utf8.rune3Max, utf8.MaxRune,
        utf8.surrogateMin, utf8.surrogateMax.
      zcmp; reflexivity.
Qed.

(** ** UTF-8: the decoder on well-formed sequences *)

Lemma first_s1 (a : byte) : 0xC2 <= a <= 0xDF -> utf8.first a = utf8.s1.
Proof. intros H. unfold utf8.first. zcmp. reflexivity. Qed.

Lemma first_s2 : utf8.first 0xE0 = utf8.s2.
Proof. reflexivity. Qed.

Lemma first_s3 (a : byte) :
  0xE1 <= a <= 0xEC \/ 0xEE <= a <= 0xEF -> utf8.first a = utf8.s3.
Proof. intros H. unfold utf8.first. zcmp; reflexivity. Qed.

Lemma first_s4 : utf8.first 0xED = utf8.s4.
Proof. reflexivity. Qed.

Lemma first_s5 : utf8.first 0xF0 = utf8.s5.
Proof. reflexivity. Qed.

Lemma first_s6 (a : byte) : 0xF1 <= a <= 0xF3 -> utf8.first a = utf8.s6.
Proof. intros H. unfold utf8.first. zcmp. reflexivity. Qed.

Lemma first_s7 : utf8.first 0xF4 = utf8.s7.
Proof. reflexivity. Qed.

Lemma len_cons {A : Type} (x : A) (l : list A) : len (x :: l) = 1 + len l.
Proof. unfold len. cbn [length]. lia. Qed.

Lemma len_nonneg {A : Type} (l : list A) : 0 <= len l.
Proof. unfold len. lia. Qed.

Ltac decode_eval :=
  unfold utf8.validStep, utf8.advance;
  rewrite ?len_cons;
  match goal with |- context [len ?q] =>
    let H := fresh in pose proof (len_nonneg q) as H;
    generalize dependent (len q); intros
  end;
  cbn [nth];
  match goal with
  | |- context [utf8.first ?a] =>
      first [ rewrite (first_s1 a) by lia | rewrite first_s2 | rewrite (first_s3 a) by lia
            | rewrite first_s4 | rewrite first_s5 | rewrite (first_s6 a) by lia
            | rewrite first_s7 ]
  end;
  cbv zeta;
  unfold utf8.s1, utf8.s2, utf8.s3, utf8.s4, utf8.s5, utf8.s6, utf8.s7, utf8.xx,
    utf8.RuneSelf, utf8.locb, utf8.hicb;
  repeat match goal with
    | |- context [Z.land ?a 7] =>
        let v := eval vm_compute in (Z.land a 7) in change (Z.land a 7) with v
    | |- context [utf8.acceptRanges ?a] =>
        let v := eval vm_compute in (utf8.acceptRanges a) in
        change (utf8.acceptRanges a) with v
    end;
  cbn [fst snd];
  zcmp; cbn [orb]; auto.

Lemma step1 (a : byte) (q : list byte) :
  a < 0x80 ->
  utf8.validStep (a :: q) = Some 1 /\ utf8.advance (a :: q) = 1.
Proof.
  intros H. unfold utf8.validStep, utf8.advance, utf8.RuneSelf.
  destruct (Z.ltb_spec a 128); [split; reflexivity | lia].
Qed.

Lemma step2 (a b : byte) (q : list byte) :
  0xC2 <= a <= 0xDF -> 0x80 <= b <= 0xBF ->
  utf8.validStep (a :: b :: q) = Some 2 /\ utf8.advance (a :: b :: q) = 2.
Proof. intros Ha Hb. split; decode_eval. Qed.

Lemma step3 (a b c : byte) (q : list byte) :
  0xE0 <= a <= 0xEF -> 0x80 <= b <= 0xBF -> 0x80 <= c <= 0xBF ->
  (a = 0xE0 -> 0xA0 <= b) -> (a = 0xED -> b <= 0x9F) ->
  utf8.validStep (a :: b :: c :: q) = Some 3
  /\ utf8.advance (a :: b :: c :: q) = 3.
Proof.
  intros Ha Hb Hc H0 HD.
  assert (Hcase : a = 0xE0 \/ a = 0xED \/ (0xE1 <= a <= 0xEC \/ 0xEE <= a <= 0xEF))
    by lia.
  destruct Hcase as [-> | [-> | Hcase]]; split; decode_eval.
Qed.

Lemma step4 (a b c d : byte) (q : list byte) :
  0xF0 <= a <= 0xF4 -> 0x80 <= b <= 0xBF -> 0x80 <= c <= 0xBF ->
  0x80 <= d <= 0xBF ->
  (a = 0xF0 -> 0x90 <= b) -> (a = 0xF4 -> b <= 0x8F) ->
  utf8.validStep (a :: b :: c :: d :: q) = Some 4
  /\ utf8.advance (a :: b :: c :: d :: q) = 4.
Proof.
  intros Ha Hb Hc Hd H0 H4.
  assert (Hcase : a = 0xF0 \/ a = 0xF4 \/ 0xF1 <= a <= 0xF3) by lia.
  destruct Hcase as [-> | [-> | Hcase]]; split; decode_eval.
Qed.

Ltac divlia := Z.to_euclidean_division_equations; lia.

Lemma enc_arith_step (v : Z) (q : list byte) :
  is_scalar v ->
  utf8.validStep (enc_arith v ++ q) = Some (len (enc_arith v))
  /\ utf8.advance (enc_arith v ++ q) = len (enc_arith v).
Proof.
  intros [Hr Hs]. unfold enc_arith. zcmp; cbn [app].
  - apply step1. lia.
  - apply step2; divlia.
  - apply step3; divlia.
  - apply step4; divlia.
Qed.

Lemma isCont_true (b : byte) : 0x80 <= b <= 0xBF -> isCont b = true.
Proof. intros H. unfold isCont. zcmp. reflexivity. Qed.

Lemma isCont_false (b : byte) : b < 0x80 \/ 0xBF < b -> isCont b = false.
Proof. intros H. unfold isCont. zcmp; reflexivity. Qed.

Lemma enc_arith_shape (v : Z) :
  is_scalar v ->
  exists lead conts,
    enc_arith v = lead :: conts /\ isCont lead = false
    /\ forallb isCont conts = true.
Proof.
  intros [Hr Hs]. unfold enc_arith.
  zcmp; eexists; eexists; (split; [reflexivity |]); cbn [forallb];
    (split; [apply isCont_false; divlia |]);
    rewrite ?isCont_true by divlia; reflexivity.
Qed.

Lemma decoded_enc_arith (v : Z) : is_scalar v -> decoded (enc_arith v) = v.
Proof.
  intros [Hr Hs]. unfold enc_arith. zcmp; unfold decoded; divlia.
Qed.

(** Only an ASCII code point has an ASCII byte in its encoding. *)
Lemma enc_arith_ascii (v : Z) (b : byte) :
  is_scalar v -> In b (enc_arith v) -> b < 0x80 -> v = b.
Proof.
  intros [Hr Hs] Hin Hb. unfold enc_arith in Hin. revert Hin.
  zcmp; cbn [In]; intros Hin;
    repeat match goal with H : _ \/ _ |- _ => destruct H end;
    try contradiction; divlia.
Qed.

(** ** Counting and validity over concatenations *)

Lemma skip_app (p q : list byte) :
  utf8.RuneCount_from (length p) (p ++ q) = utf8.RuneCount q
  /\ utf8.Valid_from (length p) (p ++ q) = utf8.Valid q.
Proof.
  induction p as [| a p IH]; [split; reflexivity |]. exact IH.
Qed.

(** A string that starts with one complete sequence [p]. *)
Lemma sequence_app (p q : list byte) :
  p <> [] ->
  utf8.validStep (p ++ q) = Some (len p) -> utf8.advance (p ++ q) = len p ->
  utf8.RuneCount (p ++ q) = 1 + utf8.RuneCount q
  /\ utf8.Valid (p ++ q) = utf8.Valid q.
Proof.
  intros Hne Hv Ha. destruct p as [| a p]; [contradiction |].
  unfold utf8.RuneCount at 1, utf8.Valid at 1.
  change ((a :: p) ++ q) with (a :: (p ++ q)) in *.
  cbn [utf8.RuneCount_from utf8.Valid_from]. rewrite Hv, Ha.
  rewrite len_cons. replace (Z.to_nat (1 + len p - 1)) with (length p)
    by (unfold len; lia).
  destruct (skip_app p q) as [-> ->]. split; reflexivity.
Qed.

Lemma first_cases (c : byte) :
  utf8.first c = utf8.as_ \/ utf8.first c = utf8.xx \/ utf8.first c = utf8.s1
  \/ utf8.first c = utf8.s2 \/ utf8.first c = utf8.s3 \/ utf8.first c = utf8.s4
  \/ utf8.first c = utf8.s5 \/ utf8.first c = utf8.s6 \/ utf8.first c = utf8.s7.
Proof. unfold utf8.first. repeat break_if; tauto. Qed.

Lemma first_as (c : byte) : utf8.first c = utf8.as_ -> c < 0x80.
Proof.
  unfold utf8.first. destruct (Z.ltb_spec c 128); [intros _; assumption |].
  repeat break_if; discriminate.
Qed.

Ltac known_first :=
  cbv zeta;
  unfold utf8.as_, utf8.s1, utf8.s2, utf8.s3, utf8.s4, utf8.s5, utf8.s6, utf8.s7,
    utf8.xx, utf8.locb, utf8.hicb in *;
  repeat match goal with
    | |- context [Z.land ?a 7] =>
        let v := eval vm_compute in (Z.land a 7) in change (Z.land a 7) with v
    | |- context [utf8.acceptRanges ?a] =>
        let v := eval vm_compute in (utf8.acceptRanges a) in
        change (utf8.acceptRanges a) with v
    | H : context [Z.land ?a 7] |- _ =>
        let v := eval vm_compute in (Z.land a 7) in change (Z.land a 7) with v in H
    | H : context [utf8.acceptRanges ?a] |- _ =>
        let v := eval vm_compute in (utf8.acceptRanges a) in
        change (utf8.acceptRanges a) with v in H
    end;
  cbn [fst snd] in *.

(** A turn of [Valid] that succeeds reads only the sequence it accepts, so
    it is the same turn, and the same turn of [RuneCount], when more bytes
    follow. *)
Lemma validStep_app (p b : list byte) (size : Z) :
  utf8.validStep p = Some size ->
  utf8.validStep (p ++ b) = Some size /\ utf8.advance (p ++ b) = size
  /\ utf8.advance p = size /\ 1 <= size <= len p.
Proof.
  intros H. destruct p as [| c rest]; [discriminate |].
  change ((c :: rest) ++ b) with (c :: (rest ++ b)).
  unfold utf8.validStep in *. unfold utf8.advance.
  pose proof (len_nonneg rest) as Lr.
  destruct (c <? utf8.RuneSelf) eqn:Hc.
  { inversion H; subst. rewrite len_cons. repeat split; lia. }
  pose proof (first_cases c) as F.
  assert (Fa : utf8.first c <> utf8.as_).
  { intros E. apply first_as in E. apply Z.ltb_ge in Hc. unfold utf8.RuneSelf in Hc. lia. }
  destruct F as [F | F]; [contradiction |]. clear Fa.
  destruct rest as [| b1 rest].
  { exfalso. rewrite len_cons in H. change (len (@nil byte)) with 0 in H.
    repeat destruct F as [F | F]; rewrite F in H; known_first; discriminate. }
  destruct rest as [| b2 rest].
  { cbn [app nth] in *. rewrite !len_cons in *.
    pose proof (len_nonneg b) as Lb. change (len (@nil byte)) with 0 in *.
    repeat destruct F as [F | F]; rewrite F in *; known_first;
      repeat break_if; try discriminate; inversion H; subst;
      repeat split; try lia; try reflexivity; exfalso; lia. }
  destruct rest as [| b3 rest].
  { cbn [app nth] in *. rewrite !len_cons in *.
    pose proof (len_nonneg b) as Lb. change (len (@nil byte)) with 0 in *.
    repeat destruct F as [F | F]; rewrite F in *; known_first;
      repeat break_if; try discriminate; inversion H; subst;
      repeat split; try lia; try reflexivity; exfalso; lia. }
  cbn [app nth] in *. rewrite !len_cons in *.
  pose proof (len_nonneg (rest ++ b)) as Lb.
  pose proof (len_nonneg rest) as Lr'.
  repeat destruct F as [F | F]; rewrite F in *; known_first;
    repeat break_if; try discriminate; inversion H; subst;
    repeat split; try lia; try reflexivity; exfalso; lia.
Qed.

Lemma valid_app (a : list byte) : forall (k : nat) (b : list byte),
  (k <= length a)%nat -> utf8.Valid_from k a = true ->
  utf8.RuneCount_from k (a ++ b) = utf8.RuneCount_from k a + utf8.RuneCount b
  /\ utf8.Valid_from k (a ++ b) = utf8.Valid b.
Proof.
  induction a as [| c rest IH]; intros k b Hk Hv.
  - cbn [length] in Hk. replace k with O by lia. split; reflexivity.
  - change ((c :: rest) ++ b) with (c :: (rest ++ b)).
    destruct k as [| k].
    + cbn [utf8.Valid_from] in Hv.
      destruct (utf8.validStep (c :: rest)) as [size |] eqn:Hs; [| discriminate].
      destruct (validStep_app (c :: rest) b size Hs) as (S1 & S2 & S3 & S4).
      change ((c :: rest) ++ b) with (c :: (rest ++ b)) in S1, S2.
      cbn [utf8.RuneCount_from utf8.Valid_from]. rewrite S1, S2, S3.
      rewrite len_cons in S4.
      destruct (IH (Z.to_nat (size - 1)) b) as [I1 I2];
        [unfold len in S4; lia | exact Hv |].
      rewrite I1, I2. split; [lia | reflexivity].
    + cbn [utf8.RuneCount_from utf8.Valid_from] in *.
      apply IH; [cbn [length] in Hk; lia | exact Hv].
Qed.

(** The count of a concatenation is the sum of the counts when the first
    part is valid UTF-8. *)
Lemma RuneCount_app (a b : list byte) :
  utf8.Valid a = true ->
  utf8.RuneCount (a ++ b) = utf8.RuneCount a + utf8.RuneCount b.
Proof. intros Hv. apply (valid_app a 0 b); [lia | exact Hv]. Qed.

Lemma Valid_app (a b : list byte) :
  utf8.Valid a = true -> utf8.Valid (a ++ b) = utf8.Valid b.
Proof. intros Hv. apply (valid_app a 0 b); [lia | exact Hv]. Qed.

(** What [WriteRune] appends is one valid sequence. *)
Lemma encoded_sequence (c : rune) (q : list byte) :
  is_rune c ->
  utf8.RuneCount (encoded c ++ q) = 1 + utf8.RuneCount q
  /\ utf8.Valid (encoded c ++ q) = utf8.Valid q.
Proof.
  intros Hc. rewrite (encoded_arith c Hc).
  pose proof (scalar_is_scalar c) as Hs.
  destruct (enc_arith_step (scalar c) q Hs) as [S1 S2].
  apply sequence_app; try assumption.
  destruct (enc_arith_shape (scalar c) Hs) as (l & cs & -> & _). discriminate.
Qed.

Lemma encoded_count (c : rune) :
  is_rune c -> utf8.RuneCount (encoded c) = 1 /\ utf8.Valid (encoded c) = true.
Proof.
  intros Hc. destruct (encoded_sequence c [] Hc) as [A B].
  rewrite app_nil_r in A, B. split; assumption.
Qed.

(** ** The counted accumulator *)

Import Ops.

(** A buffer of text: valid UTF-8 with the right count. *)
Lemma counted_zero : utf8.Valid (String zero) = true /\ counted zero.
Proof. split; reflexivity. Qed.

Lemma counted_WriteRune (b : runeBuffer) (c : rune) :
  is_rune c -> utf8.Valid (String b) = true -> counted b ->
  utf8.Valid (String (fst (WriteRune b c))) = true /\ counted (fst (WriteRune b c)).
Proof.
  unfold counted, Count, String. intros Hc Hv Hn.
  rewrite WriteRune_spec. cbn [buf runeCount].
  destruct (encoded_count c Hc) as [E1 E2].
  rewrite Valid_app, RuneCount_app by exact Hv.
  split; [exact E2 | lia].
Qed.

Lemma counted_WriteString (b : runeBuffer) (s : gostring) :
  utf8.Valid s = true -> utf8.Valid (String b) = true -> counted b ->
  utf8.Valid (String (fst (WriteString b s))) = true
  /\ counted (fst (WriteString b s)).
Proof.
  unfold counted, Count, String. intros Hs Hv Hn.
  rewrite WriteString_spec. cbn [fst buf runeCount].
  rewrite Valid_app, RuneCount_app by exact Hv.
  split; [exact Hs | lia].
Qed.

Lemma WriteTo_spec (b w : runeBuffer) :
  RuneBuffer.WriteTo b w =
  ({| buf := []; runeCount := 0 |},
   {| buf := buf w ++ buf b; runeCount := runeCount w + runeCount b |},
   len (buf b)).
Proof. reflexivity. Qed.

Lemma counted_run_op (st : store) (o : op) :
  text_op o ->
  (forall i, utf8.Valid (String (st i)) = true /\ counted (st i)) ->
  forall i, utf8.Valid (String (run_op st o i)) = true /\ counted (run_op st o i).
Proof.
  intros Ho Hst k. destruct o as [i c | i s | i j | i]; cbn [run_op text_op] in *.
  - unfold upd. destruct (Nat.eqb k i); [| apply Hst].
    apply counted_WriteRune; try apply Hst; assumption.
  - unfold upd. destruct (Nat.eqb k i); [| apply Hst].
    apply counted_WriteString; try apply Hst; assumption.
  - destruct (Nat.eqb i j).
    + unfold upd. destruct (Nat.eqb k i); [apply counted_zero | apply Hst].
    + rewrite WriteTo_spec. unfold upd.
      destruct (Nat.eqb k j).
      * destruct (Hst i) as [Vi Ci], (Hst j) as [Vj Cj].
        unfold counted, Count, String in *. cbn [buf runeCount].
        rewrite Valid_app, RuneCount_app by exact Vj. split; [exact Vi | lia].
      * destruct (Nat.eqb k i); [apply counted_zero | apply Hst].
  - unfold upd. destruct (Nat.eqb k i); [apply counted_zero | apply Hst].
Qed.

Lemma counted_run_ops (ops : list op) : forall st,
  Forall text_op ops ->
  (forall i, utf8.Valid (String (st i)) = true /\ counted (st i)) ->
  forall i, utf8.Valid (String (run_ops st ops i)) = true
            /\ counted (run_ops st ops i).
Proof.
  induction ops as [| o ops IH]; intros st Hops Hst; [exact Hst |].
  inversion Hops; subst. unfold run_ops. cbn [fold_left].
  apply IH; [assumption |]. now apply counted_run_op.
Qed.

(** C8, as stated, fails: the two bytes of "ä" written by two calls of
    WriteString are counted once each, as two invalid bytes, while the
    content then holds one code point. *)
Lemma C8_counterexample :
  let st := run_ops fresh [OpWriteString 0 [0xC3]; OpWriteString 0 [0xA4]] in
  Count (st 0%nat) = 2
  /\ String (st 0%nat) = [0xC3; 0xA4]
  /\ utf8.RuneCount (String (st 0%nat)) = 1
  /\ ~ counted (st 0%nat).
Proof. repeat split. discriminate. Qed.

(** C8, amended. After any sequence of WriteRune, WriteString, WriteTo and
    Reset operations on zero-valued buffers in which every string handed to
    WriteString is valid UTF-8, the cached count of every buffer is the
    number of code points of its content (which is valid UTF-8). WriteTo
    into another buffer appends the source's content after the
    destination's, adds the source's count to the destination's, leaves the
    source with no content and a zero count, and returns the number of
    bytes moved. *)
Theorem C8_count_matches_content :
  forall (ops : list op) (i : nat),
    Forall text_op ops ->
    let b := run_ops fresh ops i in
    Count b = utf8.RuneCount (String b)
    /\ utf8.Valid (String b) = true
    /\ (forall src dst : runeBuffer,
          RuneBuffer.WriteTo src dst =
          ({| buf := []; runeCount := 0 |},
           {| buf := String dst ++ String src;
              runeCount := Count dst + Count src |},
           len (String src))).
Proof.
  intros ops i Hops b.
  destruct (counted_run_ops ops fresh Hops (fun _ => counted_zero) i) as [V C].
  split; [exact C |]. split; [exact V |]. intros src dst. apply WriteTo_spec.
Qed.

Lemma C8_count_matches_content_witness :
  let ops := [OpWriteString 0 (str "K" ++ [0xC3; 0xA4] ++ str "se");
              OpWriteRune 1 0x1F600; OpWriteTo 1 0; OpReset 1;
              OpWriteRune 1 0x20] in
  Count (run_ops fresh ops 0%nat) = 5
  /\ String (run_ops fresh ops 0%nat) = [75; 195; 164; 115; 101; 240; 159; 152; 128]
  /\ utf8.RuneCount (String (run_ops fresh ops 0%nat)) = 5.
Proof.
  intros ops.
  pose proof (C8_count_matches_content ops 0%nat
                ltac:(repeat constructor; unfold is_rune; lia)) as (A & _).
  split; [reflexivity |]. split; [reflexivity |].
  rewrite <- A. reflexivity.
Defined.

(** ** The last rune of a line *)

Import Holds.

Lemma bytes_eqb_eq (a : gostring) : forall b, bytes_eqb a b = true -> a = b.
Proof.
  induction a as [| x a IH]; intros [| y b] H; try discriminate; [reflexivity |].
  cbn [bytes_eqb] in H. apply andb_prop in H as [H1 H2].
  apply Z.eqb_eq in H1. subst y. f_equal. now apply IH.
Qed.

Lemma HasSuffix_app (s suffix : gostring) :
  HasSuffix s suffix = true -> exists front, s = front ++ suffix.
Proof.
  unfold HasSuffix. intros H. apply andb_prop in H as [_ H].
  apply bytes_eqb_eq in H. exists (firstn (length s - length suffix) s).
  pose proof (firstn_skipn (length s - length suffix) s) as E.
  rewrite H in E. now symmetry.
Qed.

Lemma forallb_isCont_lead (front conts : list byte) (lead : byte) :
  isCont lead = false -> forallb isCont (front ++ lead :: conts) = false.
Proof.
  intros Hl. rewrite forallb_app. cbn [forallb]. rewrite Hl.
  now rewrite andb_false_r.
Qed.

Lemma lastSeq_app (front conts : list byte) (lead : byte) :
  isCont lead = false -> forallb isCont conts = true ->
  lastSeq (front ++ lead :: conts) = lead :: conts.
Proof.
  intros Hl Hc. induction front as [| x front IH].
  - cbn [app lastSeq]. now rewrite Hc.
  - change ((x :: front) ++ lead :: conts) with (x :: (front ++ lead :: conts)).
    cbn [lastSeq]. now rewrite forallb_isCont_lead.
Qed.

Lemma white_space_facts (q : rune) :
  In q white_space ->
  is_rune q /\ is_scalar q /\ scalar q = q /\ unicode.IsSpace q = true.
Proof.
  intros H. cbn [white_space In] in H.
  repeat destruct H as [H | H]; try contradiction; subst q;
    (split; [unfold is_rune; lia |]);
    (split; [unfold is_scalar; lia |]); split; reflexivity.
Qed.

Lemma decoded_encoded (c : rune) : is_rune c -> decoded (encoded c) = scalar c.
Proof.
  intros Hc. rewrite (encoded_arith c Hc).
  apply decoded_enc_arith, scalar_is_scalar.
Qed.

(** A string whose last rune is not whitespace does not end in whitespace. *)
Lemma ends_with_nonspace (front : gostring) (c : rune) :
  is_rune c -> unicode.IsSpace c = false ->
  endsInSpace (front ++ encoded c) = false.
Proof.
  intros Hc Hns. unfold endsInSpace.
  destruct (existsb _ white_space) eqn:E; [exfalso | reflexivity].
  apply existsb_exists in E as (q & Hq & Hsuf).
  destruct (white_space_facts q Hq) as (Rq & Sq & Eq & Wq).
  apply HasSuffix_app in Hsuf as (front' & Hsplit).
  rewrite AppendRune_encoded in Hsplit.
  assert (Hsame : encoded c = encoded q).
  { rewrite (encoded_arith c Hc), (encoded_arith q Rq) in *.
    destruct (enc_arith_shape (scalar c) (scalar_is_scalar c))
      as (l1 & c1 & E1 & L1 & C1).
    destruct (enc_arith_shape (scalar q) (scalar_is_scalar q))
      as (l2 & c2 & E2 & L2 & C2).
    rewrite E1, E2 in *.
    rewrite <- (lastSeq_app front c1 l1 L1 C1), Hsplit.
    now apply lastSeq_app. }
  apply (f_equal decoded) in Hsame.
  rewrite !decoded_encoded, Eq in Hsame by assumption.
  destruct (scalar_cases c) as [[_ Ec] | [_ Ec]]; rewrite Ec in Hsame.
  - subst q. congruence.
  - subst q. discriminate.
Qed.

Lemma encoded_newline (c : rune) : is_rune c -> In 0x0A (encoded c) -> c = 0x0A.
Proof.
  intros Hc Hin. rewrite (encoded_arith c Hc) in Hin.
  pose proof (enc_arith_ascii (scalar c) 10 (scalar_is_scalar c) Hin ltac:(lia)) as E.
  destruct (scalar_cases c) as [[_ Ec] | [_ Ec]]; rewrite Ec in E;
    [exact E | discriminate].
Qed.

(** ** What the accumulators hold *)

Lemma word_run_zero : word_run [] 0.
Proof. exists []. repeat split. constructor. Qed.

Lemma word_run_add (bs : gostring) (n : Z) (c : rune) :
  word_run bs n -> is_rune c -> unicode.IsSpace c = false ->
  word_run (bs ++ encoded c) (n + 1).
Proof.
  intros (ws & -> & -> & Hws) Hc Hns. exists (ws ++ [c]). split; [| split].
  - rewrite flat_map_app. cbn [flat_map]. now rewrite app_nil_r.
  - unfold len. rewrite length_app. cbn [length]. lia.
  - apply Forall_app. split; [exact Hws |]. constructor; [split; assumption | constructor].
Qed.

Lemma word_run_last (bs : gostring) (n : Z) :
  word_run bs n -> 0 < n ->
  exists front c, bs = front ++ encoded c /\ is_rune c /\ unicode.IsSpace c = false.
Proof.
  intros (ws & -> & -> & Hws) Hn.
  destruct (exists_last (l := ws)) as (ws' & c & ->).
  { intros ->. unfold len in Hn. cbn [length] in Hn. lia. }
  apply Forall_app in Hws as [_ Hc]. inversion Hc as [| ? ? [Hr Hs] _]; subst.
  exists (flat_map encoded ws'), c. split; [| split; assumption].
  rewrite flat_map_app. cbn [flat_map]. now rewrite app_nil_r.
Qed.

Lemma word_run_no_newline (bs : gostring) (n : Z) :
  word_run bs n -> ~ In 0x0A bs.
Proof.
  intros (ws & -> & _ & Hws) Hin. apply in_flat_map in Hin as (c & Hc & Hin).
  rewrite Forall_forall in Hws. destruct (Hws c Hc) as [Hr Hs].
  rewrite (encoded_newline c Hr Hin) in Hs. discriminate.
Qed.

Lemma space_run_zero : space_run [].
Proof. exists []. split; [reflexivity | constructor]. Qed.

Lemma space_run_add (bs : gostring) (c : rune) :
  space_run bs -> is_rune c -> unicode.IsSpace c = true -> c <> 0x0A ->
  space_run (bs ++ encoded c).
Proof.
  intros (ss & -> & Hss) Hc Hs Hn. exists (ss ++ [c]). split.
  - rewrite flat_map_app. cbn [flat_map]. now rewrite app_nil_r.
  - apply Forall_app. split; [exact Hss |].
    constructor; [split; [assumption | split; assumption] | constructor].
Qed.

Lemma space_run_spaces (bs : gostring) (n : nat) :
  space_run bs -> space_run (bs ++ repeat 0x20 n).
Proof.
  intros H. induction n as [| n IH]; [now rewrite app_nil_r |].
  replace (repeat 32 (S n)) with (repeat 32 n ++ encoded 32)
    by (change (encoded 32) with [32]; now rewrite <- repeat_cons).
  rewrite app_assoc. apply space_run_add; try assumption.
  - unfold is_rune. lia.
  - reflexivity.
  - discriminate.
Qed.

Lemma space_run_no_newline (bs : gostring) : space_run bs -> ~ In 0x0A bs.
Proof.
  intros (ss & -> & Hss) Hin. apply in_flat_map in Hin as (c & Hc & Hin).
  rewrite Forall_forall in Hss. destruct (Hss c Hc) as (Hr & _ & Hn).
  now apply Hn, encoded_newline.
Qed.

Lemma good_line_empty (p : gostring) : good_line p [].
Proof. split; [reflexivity | intros _ []]. Qed.

(** The committed line after a flush of a pending word. *)
Lemma good_line_flush (p ln sp w : gostring) (n : Z) (withPrefix : bool) :
  good_line p ln -> space_run sp -> word_run w n -> 0 < n ->
  good_line p (ln ++ (if withPrefix then p else []) ++ sp ++ w).
Proof.
  intros [_ Hnl] Hsp Hw Hn. split.
  - destruct (word_run_last w n Hw Hn) as (front & c & -> & Hc & Hs).
    rewrite !app_assoc. now apply ends_with_nonspace.
  - intros Hp Hin. specialize (Hnl Hp).
    apply in_app_or in Hin as [Hin | Hin]; [contradiction |].
    apply in_app_or in Hin as [Hin | Hin];
      [destruct withPrefix; [contradiction | destruct Hin] |].
    apply in_app_or in Hin as [Hin | Hin].
    + now apply (space_run_no_newline sp Hsp).
    + now apply (word_run_no_newline w n Hw).
Qed.

Ltac split_sound := unfold sound; split; [| split; [| split]].

Lemma sound_flushWord (s : Scanner) : sound s -> sound (snd (flushWord s)).
Proof.
  intros (Hr & Hw & Hsp & Hl).
  pose proof (flushWord_frame s) as (F1 & _ & F3 & _).
  pose proof (flushWord_line s) as FL.
  pose proof (flushWord_word s) as FW.
  pose proof (flushWord_space s) as FS.
  unfold sound. rewrite F1, F3, FL, FW, FS.
  destruct (Z.ltb_spec 0 (Count (word s))) as [Hpos | Hzero].
  - split; [exact Hr |]. split; [apply word_run_zero |].
    split; [apply space_run_zero |].
    exact (good_line_flush (prefix s) (String (line s)) (String (space s))
             (String (word s)) (Count (word s)) (Count (line s) =? 0)
             Hl Hsp Hw Hpos).
  - split; [exact Hr |]. split; [exact Hw |]. split; [exact Hsp | exact Hl].
Qed.

Lemma sound_processChar (c : rune) (s : Scanner) :
  is_rune c -> sound s -> sound_flow (processChar c s).
Proof.
  intros Hc Hs. unfold processChar.
  destruct (unicode.IsSpace c) eqn:Hsp.
  - pose proof (sound_flushWord s Hs) as Hs1.
    set (s1 := snd (flushWord s)) in *.
    destruct Hs1 as (Hr & Hw & Hspace & Hl).
    destruct (Z.eqb_spec c 10) as [-> | Hnl].
    + cbn [sound_flow sound_outcome]. split; [| exact Hl].
      split_sound; [exact Hr | exact Hw | apply space_run_zero | apply good_line_empty].
    + destruct (skipNextWS s1);
        [split_sound; [exact Hr | exact Hw | exact Hspace | exact Hl] |].
      destruct (c =? 9).
      * unfold Repeat. break_if; [exact I |].
        rewrite WriteString_spec. cbn [sound_flow fst].
        split_sound; [exact Hr | exact Hw | | exact Hl].
        now apply space_run_spaces.
      * rewrite WriteRune_spec. cbn [sound_flow].
        split_sound; [exact Hr | exact Hw | | exact Hl].
        now apply space_run_add.
  - destruct Hs as (Hr & Hw & Hspace & Hl).
    rewrite WriteRune_spec.
    assert (Hw' : word_run (String (word s) ++ encoded c) (Count (word s) + 1))
      by now apply word_run_add.
    break_if.
    + cbn [sound_flow sound_outcome]. split; [| exact Hl].
      split_sound; [exact Hr | exact Hw' | exact Hspace | apply good_line_empty].
    + cbn [sound_flow].
      split_sound; [exact Hr | exact Hw' | exact Hspace | exact Hl].
Qed.

Lemma sound_widthCheck (s : Scanner) : sound s -> sound_flow (widthCheck s).
Proof.
  intros Hs. unfold widthCheck.
  destruct (limit s <=? total s); [| exact Hs].
  pose proof (peekRune_keeps (r s)) as K.
  destruct (peekRune (r s)) as [[[next nextSize] e] rs]. cbn [snd] in K. subst rs.
  assert (Hs0 : sound (set_r (r s) s)) by exact Hs.
  set (s0 := set_r (r s) s) in *. clearbody s0.
  destruct (is_failure e).
  - cbn [sound_flow sound_outcome]. split; [exact Hs0 | apply good_line_empty].
  - assert (Hs1 : sound (if (Count (word s0) =? limit s0) || unicode.IsSpace next
                            || (nextSize =? 0)
                         then snd (flushWord s0) else s0))
      by (break_if; [now apply sound_flushWord | exact Hs0]).
    match type of Hs1 with sound ?t => set (s1 := t) in *; clearbody s1 end.
    assert (Hs2 : sound (if negb (nextSize =? 0) && negb (next =? 10)
                            && (Count (space s1) <? limit s1)
                         then set_needNewline true s1 else s1))
      by (break_if; exact Hs1).
    match type of Hs2 with sound ?t => set (s2 := t) in *; clearbody s2 end.
    destruct Hs2 as (Hr & Hw & Hspace & Hl).
    cbn [sound_flow].
    split_sound; [exact Hr | exact Hw | apply space_run_zero | exact Hl].
Qed.

Lemma sound_loop (input : list rune) : forall s,
  Forall is_rune input -> sound s -> sound_outcome (loop input s).
Proof.
  induction input as [| c rest IH]; intros s Hin Hs; cbn [loop].
  - destruct (final (r s)).
    + pose proof (sound_flushWord s Hs) as (Hr & Hw & Hspace & Hl).
      cbn [sound_outcome]. split; [| exact Hl].
      split_sound; [exact Hr | exact Hw | exact Hspace | apply good_line_empty].
    + cbn [sound_outcome]. split; [exact Hs | apply good_line_empty].
  - inversion Hin as [| ? ? Hc Hrest]; subst.
    assert (Hs0 : sound (set_r {| pending := rest; final := final (r s) |} s)).
    { destruct Hs as (_ & Hw & Hspace & Hl).
      split_sound; [exact Hrest | exact Hw | exact Hspace | exact Hl]. }
    set (s0 := set_r _ s) in *. clearbody s0.
    pose proof (sound_processChar c s0 Hc Hs0) as Hp.
    destruct (processChar c s0) as [s1 | s1 | o]; cbn [sound_flow] in Hp.
    + pose proof (sound_widthCheck s1 Hp) as Hw.
      destruct (widthCheck s1) as [s2 | s2 | o]; cbn [sound_flow] in Hw;
        [now apply IH | now apply IH | exact Hw].
    + now apply IH.
    + exact Hp.
Qed.

Lemma sound_ReadLine (s : Scanner) : sound s -> sound_outcome (ReadLine s).
Proof.
  intros Hs. unfold ReadLine. destruct (err s).
  - cbn [sound_outcome]. split; [exact Hs | apply good_line_empty].
  - apply sound_loop; [apply Hs | exact Hs].
Qed.

Lemma sound_reaches (s0 s : Scanner) : sound s0 -> reaches s0 s -> sound s.
Proof.
  intros H0 R. induction R as [| s1 ret e s2 R IH Hcall]; [exact H0 |].
  pose proof (sound_ReadLine s1 IH) as H. rewrite Hcall in H. apply H.
Qed.

Lemma sound_configured (rs : RuneScanner) (limit : Z) (p : gostring) (tw : Z) :
  Forall is_rune (pending rs) -> sound (configured rs limit p tw).
Proof.
  intros H.
  split_sound; [exact H | apply word_run_zero | apply space_run_zero
               | apply good_line_empty].
Qed.

Lemma reaches_config (s0 s : Scanner) :
  reaches s0 s -> prefix s = prefix s0 /\ tabWidth s = tabWidth s0
                  /\ limit s = limit s0.
Proof.
  intros R. induction R as [| s1 ret e s2 R IH Hcall]; [repeat split |].
  destruct (err s1) as [x |] eqn:He.
  - rewrite (ReadLine_terminal s1 x He) in Hcall. inversion Hcall; subst. exact IH.
  - destruct (ReadLine_live s1 ret e s2 He Hcall) as (L & P & T & _).
    destruct IH as (IP & IT & IL). repeat split; congruence.
Qed.

(** ** Whitespace only *)

Lemma flushWord_no_word (s : Scanner) : word s = zero -> flushWord s = (0, s).
Proof. intros H. unfold flushWord. now rewrite H. Qed.

Lemma blank_processChar (c : rune) (s : Scanner) :
  unicode.IsSpace c = true -> c <> 0x0A -> 0 <= tabWidth s -> blank s ->
  exists s', (processChar c s = Next s' \/ processChar c s = Skip s') /\ blank s'.
Proof.
  intros Hsp Hnl Htw (Bl & Bw & Bn & Be & Bs).
  unfold processChar. rewrite Hsp, (flushWord_no_word s Bw). cbn [snd].
  destruct (Z.eqb_spec c 10) as [? | _]; [contradiction |].
  destruct (skipNextWS s).
  { exists s. split; [now right | repeat split; assumption]. }
  destruct (c =? 9).
  - rewrite Bl. change (Count zero) with 0.
    change (Z.rem 0 (tabWidth s)) with 0.
    unfold Repeat.
    destruct (Z.ltb_spec (if tabWidth s =? 0 then 0 else tabWidth s - 0) 0)
      as [Hneg | Hge]; [exfalso; break_if; lia |].
    rewrite WriteString_spec. cbn [fst].
    eexists. split; [now left |].
    repeat split; try assumption. cbn.
    apply Z.add_nonneg_nonneg; [exact Bs | apply RuneCount_nonneg].
  - rewrite WriteRune_spec. eexists. split; [now left |].
    repeat split; try assumption. cbn. unfold Count in Bs. lia.
Qed.

Lemma blank_widthCheck (s : Scanner) :
  final (r s) = EOF -> blank s -> exists s', widthCheck s = Next s' /\ blank s'.
Proof.
  intros Hf (Bl & Bw & Bn & Be & Bs). unfold widthCheck.
  destruct (Z.leb_spec (limit s) (total s)) as [Hge | _];
    [| exists s; split; [reflexivity | repeat split; assumption]].
  pose proof (peekRune_keeps (r s)) as K.
  pose proof (peekRune_result (r s)) as P.
  destruct (peekRune (r s)) as [[[next nextSize] e] rs]. cbn [fst snd] in K, P.
  subst rs.
  assert (Hs0 : set_r (r s) s = s) by (destruct s; reflexivity).
  rewrite Hs0.
  assert (He : is_failure e = false).
  { destruct (pending (r s)); inversion P; subst; [now rewrite Hf | reflexivity]. }
  rewrite He, (flushWord_no_word s Bw). cbn [snd].
  assert (Hnn : (if negb (nextSize =? 0) && negb (next =? 10)
                    && (Count (space s) <? limit s)
                 then set_needNewline true s else s) = s).
  { unfold total in Hge. rewrite Bl, Bw in Hge. change (Count zero) with 0 in Hge.
    destruct (Z.ltb_spec (Count (space s)) (limit s)); [lia |].
    now rewrite andb_false_r. }
  destruct ((Count (word s) =? limit s) || unicode.IsSpace next || (nextSize =? 0));
    rewrite Hnn; eexists; (split; [reflexivity |]);
    repeat split; try assumption; cbn; lia.
Qed.

Lemma blank_loop (input : list rune) : forall s,
  Forall (fun c => unicode.IsSpace c = true /\ c <> 0x0A) input ->
  0 <= tabWidth s -> final (r s) = EOF -> blank s ->
  exists s', loop input s = Returned [] None s' /\ err s' = Some EOF.
Proof.
  induction input as [| c rest IH]; intros s Hin Htw Hf Hb; cbn [loop].
  - destruct Hb as (Bl & Bw & _).
    rewrite Hf, (flushWord_no_word s Bw). cbn [snd]. rewrite Bl.
    eexists. split; reflexivity.
  - inversion Hin as [| ? ? [Hsp Hnl] Hrest]; subst.
    set (s0 := set_r {| pending := rest; final := final (r s) |} s).
    assert (H0 : 0 <= tabWidth s0 /\ final (r s0) = EOF /\ blank s0).
    { subst s0. split; [exact Htw |]. split; [exact Hf |].
      destruct Hb as (Bl & Bw & Bn & Be & Bs). repeat split; assumption. }
    clearbody s0. destruct H0 as (Htw0 & Hf0 & Hb0).
    destruct (blank_processChar c s0 Hsp Hnl Htw0 Hb0) as (s1 & [Hp | Hp] & Hb1);
      rewrite Hp.
    + destruct (processChar_frame c s0 s1 (or_introl Hp)) as (A1 & _ & _ & A4 & _).
      destruct (blank_widthCheck s1) as (s2 & Hw & Hb2);
        [now rewrite A1 | exact Hb1 |].
      rewrite Hw.
      destruct (widthCheck_frame s1 s2 (or_introl Hw)) as (B1 & _ & _ & B4 & _).
      apply IH; [exact Hrest | lia | now rewrite B1, A1 | exact Hb2].
    + destruct (processChar_frame c s0 s1 (or_intror Hp)) as (A1 & _ & _ & A4 & _).
      apply IH; [exact Hrest | lia | now rewrite A1 | exact Hb1].
Qed.

(** ** Trailing whitespace *)

(** C7, as stated, fails: the input "\n" consists only of whitespace and
    yields two lines, both empty, before the end-of-input sentinel. *)
Lemma C7_counterexample :
  Forall (fun c => unicode.IsSpace c = true) [0x0A]
  /\ readLines 3 (configured (reader [0x0A]) 4 [] 4) = ([[]; []], AtEOF).
Proof. split; [repeat constructor | reflexivity]. Qed.

(** C7, amended. Whatever the source, the width, the prefix and the tab
    width, no line returned by any call of ReadLine ends in whitespace: the
    whitespace pending before a newline, a forced break or the end of the
    input is never part of it. And an input that consists only of
    whitespace other than newline (or is empty) yields exactly one line, the
    empty string, and then the end-of-input sentinel. *)
Theorem C7_no_trailing_whitespace :
  forall (rs : RuneScanner) (limit : Z) (p : gostring) (tw : Z),
    Forall is_rune (pending rs) ->
    (forall s ret e s',
        reaches (configured rs limit p tw) s ->
        ReadLine s = Returned ret e s' ->
        endsInSpace ret = false)
    /\ (0 <= tw -> final rs = EOF ->
        Forall (fun c => unicode.IsSpace c = true /\ c <> 0x0A) (pending rs) ->
        readLines 2 (configured rs limit p tw) = ([[]], AtEOF)).
Proof.
  intros rs limit p tw Hr. split.
  - intros s ret e s' R Hcall.
    pose proof (sound_reaches _ s (sound_configured rs limit p tw Hr) R) as Hs.
    pose proof (sound_ReadLine s Hs) as Ho. rewrite Hcall in Ho.
    destruct Ho as [_ [G _]]. exact G.
  - intros Htw Hf Hws.
    destruct (blank_loop (pending rs) (configured rs limit p tw) Hws Htw Hf)
      as (s' & Hl & He).
    { repeat split. cbn. lia. }
    cbn [readLines]. unfold ReadLine at 1.
    change (err (configured rs limit p tw)) with (@None error).
    change (pending (r (configured rs limit p tw))) with (pending rs).
    rewrite Hl. rewrite (ReadLine_terminal s' EOF He). reflexivity.
Qed.

Lemma C7_no_trailing_whitespace_witness :
  let s := configured (reader (str "foo " ++ [0x0A] ++ str "bar")) 5 (str "> ") 4 in
  (exists s', ReadLine s = Returned (str "> foo") None s'
              /\ endsInSpace (str "> foo") = false)
  /\ readLines 2 (configured (reader (str "  " ++ [0x09] ++ str " ")) 4 [] 4)
     = ([[]], AtEOF).
Proof.
  intros s. split.
  - destruct (ReadLine s) as [ret e s' |] eqn:Hcall; [| discriminate].
    assert (Hret : ret = str "> foo" /\ e = None)
      by (vm_compute in Hcall; inversion Hcall; split; reflexivity).
    destruct Hret as [-> ->].
    exists s'. split; [reflexivity |].
    refine (proj1 (C7_no_trailing_whitespace
                     (reader (str "foo " ++ [0x0A] ++ str "bar")) 5 (str "> ") 4 _)
              s (str "> foo") None s' (reaches_here _) Hcall).
    repeat constructor; unfold is_rune; lia.
  - refine (proj2 (C7_no_trailing_whitespace
                     (reader (str "  " ++ [0x09] ++ str " ")) 4 [] 4 _) _ eq_refl _).
    + repeat constructor; unfold is_rune; lia.
    + lia.
    + repeat constructor; discriminate.
Defined.

(** ** Newlines inside lines *)

(** C10, as stated, fails: a prefix may hold a newline, and the prefix is
    part of every non-empty line. *)
Lemma C10_counterexample :
  exists s', ReadLine (configured (reader (str "foo")) 8 [0x0A] 4)
             = Returned (0x0A :: str "foo") None s'
             /\ In 0x0A (0x0A :: str "foo").
Proof. eexists. split; [reflexivity | now left]. Qed.

(** C10, amended. When the prefix holds no newline, no line returned by any
    call of ReadLine holds a newline. Between calls the pending word holds
    only the encodings of runes that are not whitespace, as many as its
    count, and the pending space only the encodings of whitespace runes
    other than newline. *)
Theorem C10_no_newline_in_lines :
  forall (rs : RuneScanner) (limit : Z) (p : gostring) (tw : Z),
    Forall is_rune (pending rs) -> ~ In 0x0A p ->
    forall s ret e s',
      reaches (configured rs limit p tw) s ->
      ReadLine s = Returned ret e s' ->
      ~ In 0x0A ret
      /\ word_run (String (word s')) (Count (word s'))
      /\ space_run (String (space s')).
Proof.
  intros rs limit p tw Hr Hp s ret e s' R Hcall.
  pose proof (sound_reaches _ s (sound_configured rs limit p tw Hr) R) as Hs.
  pose proof (sound_ReadLine s Hs) as Ho. rewrite Hcall in Ho.
  destruct Ho as [(_ & Hw & Hsp & _) [_ G]].
  split; [| split; assumption].
  apply G.
  destruct (reaches_config _ s' (reaches_call _ s ret e s' R Hcall)) as (-> & _).
  exact Hp.
Qed.

Lemma C10_no_newline_in_lines_witness :
  let s := configured (reader (str "foo" ++ [0x0A] ++ str "bar")) 8 (str "--") 4 in
  exists s', ReadLine s = Returned (str "--foo") None s'
             /\ ~ In 0x0A (str "--foo").
Proof.
  intros s.
  destruct (ReadLine s) as [ret e s' |] eqn:Hcall; [| discriminate].
  assert (Hret : ret = str "--foo" /\ e = None)
    by (vm_compute in Hcall; inversion Hcall; split; reflexivity).
  destruct Hret as [-> ->].
  exists s'. split; [reflexivity |].
  refine (proj1 (C10_no_newline_in_lines
                   (reader (str "foo" ++ [0x0A] ++ str "bar")) 8 (str "--") 4 _ _
                   s (str "--foo") None s' (reaches_here _) Hcall)).
  - repeat constructor; unfold is_rune; lia.
  - cbn. intros H. repeat destruct H as [H | H]; try discriminate; exact H.
Defined.


(** * Further properties *)

Import View.

(** ** Lists of runes *)

Lemma len_app {A : Type} (a b : list A) : len (a ++ b) = len a + len b.
Proof. unfold len. rewrite length_app. lia. Qed.

Lemma nonspace_app (a b : list rune) : nonspace (a ++ b) = nonspace a ++ nonspace b.
Proof. apply filter_app. Qed.

Lemma nonspace_spaces (S : list rune) :
  Forall (fun c => unicode.IsSpace c = true) S -> nonspace S = [].
Proof.
  induction 1 as [| c S Hc _ IH]; [reflexivity |].
  unfold nonspace in *. cbn [filter]. now rewrite Hc.
Qed.

Lemma nonspace_word (W : list rune) :
  Forall (fun c => unicode.IsSpace c = false) W -> nonspace W = W.
Proof.
  induction 1 as [| c W Hc _ IH]; [reflexivity |].
  unfold nonspace in *. cbn [filter]. rewrite Hc. cbn [negb]. now rewrite IH.
Qed.

Lemma flat_map_spaces (n : nat) : flat_map encoded (repeat 0x20 n) = repeat 0x20 n.
Proof. induction n as [| n IH]; [reflexivity |]. cbn [repeat flat_map]. now rewrite IH. Qed.

Lemma ends_in_word_app (L W : list rune) :
  W <> [] -> Forall (fun c => unicode.IsSpace c = false) W -> ends_in_word (L ++ W).
Proof.
  intros Hne Hw. right. destruct (exists_last Hne) as (W0 & c & ->).
  apply Forall_app in Hw as [_ Hc]. inversion Hc; subst.
  exists (L ++ W0), c. split; [now rewrite app_assoc | assumption].
Qed.

Lemma kept_nonspace (c : rune) : is_rune c -> unicode.IsSpace c = false -> kept c.
Proof.
  intros Hr Hs. split; [exact Hr |]. split; intros ->; discriminate.
Qed.

Lemma render_word (p : gostring) (A : list rune) (w : rune) (W : list rune) :
  render p (A ++ w :: W) = p ++ flat_map encoded (A ++ w :: W).
Proof. destruct A; reflexivity. Qed.

Lemma line_count_word (A : list rune) (w : rune) (W : list rune) (x : Z) :
  match A ++ w :: W with [] => 0 | _ :: _ => x end = x.
Proof. destruct A; reflexivity. Qed.

(** ** The view through the parts of the loop *)

Lemma view_flushWord (s : Scanner) (L S W : list rune) :
  view s L S W ->
  exists L' S',
    view (snd (flushWord s)) L' S' []
    /\ nonspace L' = nonspace L ++ W
    /\ (W = [] -> snd (flushWord s) = s /\ L' = L /\ S' = S).
Proof.
  intros (Hl & Hs & Hw & FS & FW & FK & He).
  destruct W as [| w W'].
  - exists L, S. destruct Hw as [Hw1 Hw2].
    assert (E : flushWord s = (0, s)).
    { unfold flushWord. rewrite Hw2. reflexivity. }
    rewrite E. cbn [snd]. split; [| split].
    + repeat split; try assumption; try apply Hl; try apply Hs.
    + now rewrite app_nil_r.
    + intros _. repeat split.
  - exists (L ++ S ++ w :: W'), [].
    pose proof (flushWord_frame s) as (_ & _ & F3 & _).
    pose proof (flushWord_line s) as FL.
    pose proof (flushWord_line_count s) as FC.
    pose proof (flushWord_word s) as FWd.
    pose proof (flushWord_space s) as FSp.
    destruct Hl as [Hl1 Hl2], Hs as [Hs1 Hs2], Hw as [Hw1 Hw2].
    assert (Hpos : (0 <? Count (word s)) = true).
    { rewrite Hw2, len_cons. pose proof (len_nonneg W'). apply Z.ltb_lt. lia. }
    rewrite Hpos in FL, FC, FWd, FSp.
    pose proof (RuneCount_nonneg (prefix s)) as Hp.
    split; [| split].
    + unfold view. rewrite F3, FWd, FSp.
      split; [| split; [split; reflexivity | split; [split; reflexivity |]]].
      * unfold line_holds. rewrite FL, FC, Hl1, Hl2, Hs1, Hs2, Hw1, Hw2.
        assert (R1 : render (prefix s) (L ++ S ++ w :: W')
                     = prefix s ++ flat_map encoded (L ++ S ++ w :: W'))
          by (rewrite app_assoc; apply render_word).
        assert (R2 : match L ++ S ++ w :: W' with
                     | [] => 0
                     | _ :: _ => utf8.RuneCount (prefix s) + len (L ++ S ++ w :: W')
                     end = utf8.RuneCount (prefix s) + len (L ++ S ++ w :: W'))
          by (rewrite app_assoc; apply line_count_word).
        rewrite R1, R2. clear R1 R2.
        rewrite !flat_map_app, !len_app.
        destruct L as [| l L0].
        -- cbn [render app flat_map len length]. change (0 =? 0) with true.
           cbv iota. split; [reflexivity | unfold len; cbn [length]; lia].
        -- cbn [render].
           assert (Hnz : (utf8.RuneCount (prefix s) + len (l :: L0) =? 0) = false).
           { apply Z.eqb_neq. rewrite len_cons. pose proof (len_nonneg L0). lia. }
           rewrite Hnz. cbn [app]. rewrite <- !app_assoc.
           split; [reflexivity | lia].
      * split; [constructor |]. split; [constructor |].
        rewrite !app_nil_r. split; [exact FK |].
        rewrite app_assoc. apply ends_in_word_app; [discriminate | exact FW].
    + rewrite !nonspace_app, (nonspace_spaces S FS), (nonspace_word _ FW).
      reflexivity.
    + discriminate.
Qed.

Lemma kept3 (L S W : list rune) :
  Forall kept (L ++ S ++ W) <-> Forall kept L /\ Forall kept S /\ Forall kept W.
Proof. rewrite !Forall_app. tauto. Qed.

Lemma holds_WriteRune (b : runeBuffer) (X : list rune) (c : rune) :
  holds b X -> holds (fst (WriteRune b c)) (X ++ [c]).
Proof.
  intros [H1 H2]. rewrite WriteRune_spec. unfold holds, String, Count in *.
  cbn [buf runeCount]. rewrite H1, H2, flat_map_app, len_app. cbn [flat_map].
  rewrite app_nil_r. split; reflexivity.
Qed.

Lemma holds_spaces (b : runeBuffer) (X : list rune) (n : nat) :
  holds b X -> holds (fst (WriteString b (repeat 0x20 n))) (X ++ repeat 0x20 n).
Proof.
  intros [H1 H2]. rewrite WriteString_spec. unfold holds, String, Count in *.
  cbn [fst buf runeCount].
  rewrite H1, H2, flat_map_app, len_app, flat_map_spaces, RuneCount_spaces.
  unfold len. rewrite repeat_length. split; reflexivity.
Qed.

Lemma holds_zero : holds zero [].
Proof. split; reflexivity. Qed.

Lemma line_holds_zero (p : gostring) : line_holds p zero [].
Proof. split; reflexivity. Qed.

Lemma Forall_repeat {A : Type} (P : A -> Prop) (x : A) (n : nat) :
  P x -> Forall P (repeat x n).
Proof. intros H. induction n; constructor; assumption. Qed.

Lemma kept_space : kept 0x20.
Proof. split; [unfold is_rune; lia | split; discriminate]. Qed.

(** A character after which the loop goes on: the text held grows by the
    character when it is not whitespace, and a newline never gets here. *)
Lemma view_processChar_next (c : rune) (s s' : Scanner) (L S W : list rune) :
  is_rune c -> view s L S W ->
  processChar c s = Next s' \/ processChar c s = Skip s' ->
  c <> 0x0A
  /\ exists L' S' W',
       view s' L' S' W' /\ nonspace L' ++ W' = nonspace L ++ W ++ nonspace [c].
Proof.
  intros Hc V H. unfold processChar in H.
  destruct (unicode.IsSpace c) eqn:Hsp.
  - destruct (view_flushWord s L S W V) as (L1 & S1 & V1 & N1 & _).
    set (s1 := snd (flushWord s)) in *.
    destruct (Z.eqb_spec c 10) as [-> | Hnl]; [destruct H; discriminate |].
    split; [exact Hnl |].
    assert (Hns : nonspace [c] = []) by (unfold nonspace; cbn [filter]; now rewrite Hsp).
    rewrite Hns, app_nil_r, <- N1.
    destruct V1 as (Vl & Vs & Vw & FS & FW & FK & Ve).
    apply kept3 in FK as (K1 & K2 & K3).
    destruct (skipNextWS s1).
    { destruct H as [H | H]; inversion H; subst s'.
      exists L1, S1, []. split; [| apply app_nil_r].
      repeat split; try assumption; try apply Vl; try apply Vs; try apply Vw.
      apply kept3. repeat split; assumption. }
    destruct (Z.eqb_spec c 9) as [-> | Htab].
    + unfold Repeat in H. break_if; [destruct H; discriminate |].
      destruct H as [H | H]; inversion H; subst s'.
      eexists L1, (S1 ++ repeat 32 _), []. split; [| apply app_nil_r].
      unfold view. cbn [prefix line space word set_space].
      split; [exact Vl |]. split; [now apply holds_spaces |].
      split; [exact Vw |].
      split; [apply Forall_app; split; [exact FS | now apply Forall_repeat] |].
      split; [exact FW |]. split; [| exact Ve].
      apply kept3. split; [exact K1 |]. split; [| exact K3].
      apply Forall_app. split; [exact K2 | apply Forall_repeat, kept_space].
    + destruct H as [H | H]; inversion H; subst s'.
      exists L1, (S1 ++ [c]), []. split; [| apply app_nil_r].
      unfold view. cbn [prefix line space word set_space].
      split; [exact Vl |]. split; [now apply holds_WriteRune |].
      split; [exact Vw |].
      split; [apply Forall_app; split; [exact FS | now repeat constructor] |].
      split; [exact FW |]. split; [| exact Ve].
      apply kept3. split; [exact K1 |]. split; [| exact K3].
      apply Forall_app. split; [exact K2 |].
      constructor; [split; [exact Hc | split; assumption] | constructor].
  - assert (Hne : c <> 10) by (intros ->; discriminate).
    split; [exact Hne |].
    assert (Hns : nonspace [c] = [c]) by (unfold nonspace; cbn [filter]; now rewrite Hsp).
    rewrite Hns.
    destruct V as (Vl & Vs & Vw & FS & FW & FK & Ve).
    apply kept3 in FK as (K1 & K2 & K3).
    break_if; [destruct H; discriminate |].
    destruct H as [H | H]; inversion H; subst s'.
    exists L, S, (W ++ [c]). split; [| reflexivity].
    unfold view. cbn [prefix line space word set_word set_skipNextWS].
    split; [exact Vl |]. split; [exact Vs |].
    split; [now apply holds_WriteRune |]. split; [exact FS |].
    split; [apply Forall_app; split; [exact FW | now repeat constructor] |].
    split; [| exact Ve].
    apply kept3. split; [exact K1 |]. split; [exact K2 |].
    apply Forall_app. split; [exact K3 |].
    constructor; [now apply kept_nonspace | constructor].
Qed.

Lemma nonspace_one_space (c : rune) : unicode.IsSpace c = true -> nonspace [c] = [].
Proof. intros H. unfold nonspace. cbn [filter]. now rewrite H. Qed.

Lemma nonspace_one_word (c : rune) : unicode.IsSpace c = false -> nonspace [c] = [c].
Proof. intros H. unfold nonspace. cbn [filter]. now rewrite H. Qed.

(** A character on which the call returns: a newline, or the first rune of
    a word when a break is pending. The line returned is the committed text;
    the rest stays in the scanner. *)
Lemma view_processChar_exit (c : rune) (s s' : Scanner) (L S W : list rune)
    (ret : gostring) (e : option error) :
  is_rune c -> view s L S W ->
  processChar c s = Exit (Returned ret e s') ->
  e = None
  /\ exists R L' S' W',
       ret = render (prefix s) R /\ view s' L' S' W'
       /\ nonspace R ++ nonspace L' ++ W' = nonspace L ++ W ++ nonspace [c]
       /\ ends_in_word R /\ Forall kept R.
Proof.
  intros Hc V H. unfold processChar in H.
  destruct (unicode.IsSpace c) eqn:Hsp.
  - destruct (view_flushWord s L S W V) as (L1 & S1 & V1 & N1 & _).
    pose proof (flushWord_frame s) as (_ & _ & F3 & _).
    set (s1 := snd (flushWord s)) in *.
    destruct (Z.eqb_spec c 10) as [-> | Hnl].
    + inversion H; subst ret e s'. split; [reflexivity |].
      destruct V1 as (Vl & Vs & Vw & FS & FW & FK & Ve).
      apply kept3 in FK as (K1 & K2 & K3).
      exists L1, [], [], []. split; [rewrite <- F3; apply Vl |].
      split; [| split; [| split; assumption]].
      * unfold view. cbn [prefix line space word set_space set_line set_skipNextWS].
        split; [apply line_holds_zero |]. split; [apply holds_zero |].
        split; [exact Vw |]. split; [constructor |]. split; [constructor |].
        split; [constructor | now left].
      * rewrite (nonspace_one_space 10 Hsp), !app_nil_r. exact N1.
    + destruct (skipNextWS s1); [discriminate |].
      destruct (c =? 9); [| discriminate].
      unfold Repeat in H. break_if; discriminate.
  - destruct V as (Vl & Vs & Vw & FS & FW & FK & Ve).
    apply kept3 in FK as (K1 & K2 & K3).
    break_if; [| discriminate].
    inversion H; subst ret e s'. split; [reflexivity |].
    exists L, [], S, (W ++ [c]).
    split; [apply Vl |]. split; [| split; [| split; assumption]].
    + unfold view.
      cbn [prefix line space word set_line set_needNewline set_word set_skipNextWS].
      split; [apply line_holds_zero |]. split; [exact Vs |].
      split; [now apply holds_WriteRune |]. split; [exact FS |].
      split; [apply Forall_app; split; [exact FW | now repeat constructor] |].
      split; [| now left].
      apply (kept3 [] S (W ++ [c])). split; [constructor |]. split; [exact K2 |].
      apply Forall_app. split; [exact K3 |].
      constructor; [now apply kept_nonspace | constructor].
    + rewrite (nonspace_one_word c Hsp). cbn [nonspace filter app].
      reflexivity.
Qed.

Lemma view_widthCheck_next (s s' : Scanner) (L S W : list rune) :
  view s L S W ->
  widthCheck s = Next s' \/ widthCheck s = Skip s' ->
  exists L' S' W', view s' L' S' W' /\ nonspace L' ++ W' = nonspace L ++ W.
Proof.
  intros V H. unfold widthCheck in H.
  destruct (limit s <=? total s).
  2: { destruct H as [H | H]; inversion H; subst s'. now exists L, S, W. }
  pose proof (peekRune_keeps (r s)) as K.
  destruct (peekRune (r s)) as [[[next nextSize] e] rs]. cbn [snd] in K. subst rs.
  assert (V0 : view (set_r (r s) s) L S W) by exact V.
  set (s0 := set_r (r s) s) in *. clearbody s0.
  destruct (is_failure e); [destruct H; discriminate |].
  assert (V1 : exists L1 S1 W1,
             view (if (Count (word s0) =? limit s0) || unicode.IsSpace next
                      || (nextSize =? 0)
                   then snd (flushWord s0) else s0) L1 S1 W1
             /\ nonspace L1 ++ W1 = nonspace L ++ W).
  { break_if; [| now exists L, S, W].
    destruct (view_flushWord s0 L S W V0) as (L1 & S1 & V1 & N1 & _).
    exists L1, S1, []. split; [exact V1 | now rewrite app_nil_r]. }
  destruct V1 as (L1 & S1 & W1 & V1 & N1).
  match type of V1 with view ?t _ _ _ => set (s1 := t) in *; clearbody s1 end.
  assert (V2 : view (if negb (nextSize =? 0) && negb (next =? 10)
                        && (Count (space s1) <? limit s1)
                     then set_needNewline true s1 else s1) L1 S1 W1)
    by (break_if; exact V1).
  match type of V2 with view ?t _ _ _ => set (s2 := t) in *; clearbody s2 end.
  destruct H as [H | H]; inversion H; subst s'.
  exists L1, [], W1. split; [| exact N1].
  destruct V2 as (Vl & Vs & Vw & FS & FW & FK & Ve).
  apply kept3 in FK as (K1 & K2 & K3).
  unfold view. cbn [prefix line space word set_space set_skipNextWS].
  split; [exact Vl |]. split; [apply holds_zero |]. split; [exact Vw |].
  split; [constructor |]. split; [exact FW |]. split; [| exact Ve].
  apply kept3. split; [exact K1 |]. split; [constructor | exact K3].
Qed.

Lemma view_widthCheck_exit (s s' : Scanner) (L S W : list rune)
    (ret : gostring) (e : option error) :
  view s L S W -> widthCheck s = Exit (Returned ret e s') -> view s' L S W.
Proof.
  intros V H. unfold widthCheck in H.
  destruct (limit s <=? total s); [| discriminate].
  destruct (peekRune (r s)) as [[[next nextSize] e0] rs].
  destruct (is_failure e0); [| discriminate].
  inversion H; subst. exact V.
Qed.

Lemma newlines_cons (c : rune) (l : list rune) :
  c <> 0x0A -> newlines (c :: l) = newlines l.
Proof.
  intros H. unfold newlines. cbn [filter].
  destruct (Z.eqb_spec 10 c) as [E | _]; [now contradiction H | reflexivity].
Qed.

Lemma newlines_one (c : rune) : (newlines [c] <= 1)%nat.
Proof. unfold newlines. cbn [filter]. destruct (10 =? c); cbn; lia. Qed.

(** ** A call of ReadLine, in runes *)

(** What a call that enters the loop does with the text: it consumes a
    front part of the input, with at most one newline in it, and what it
    returns and what it still holds add up, as far as runes that are not
    whitespace go, to what it held plus what it consumed. *)
Lemma loop_text (input : list rune) : forall s L S W ret e s',
  Forall is_rune input -> pending (r s) = input -> err s = None ->
  view s L S W ->
  loop input s = Returned ret e s' ->
  exists R L' S' W' consumed,
    input = consumed ++ pending (r s')
    /\ view s' L' S' W'
    /\ (newlines consumed <= 1)%nat
    /\ (err s' = Some EOF -> newlines consumed = 0%nat)
    /\ (e = None ->
        ret = render (prefix s) R
        /\ nonspace R ++ nonspace L' ++ W' = nonspace L ++ W ++ nonspace consumed
        /\ ends_in_word R /\ Forall kept R
        /\ (err s' <> None -> L' = [] /\ W' = [])).
Proof.
  induction input as [| c rest IH]; intros s L S W ret e s' Hin Hp He V H;
    cbn [loop] in H.
  - destruct (final (r s)) eqn:Hf.
    + destruct (view_flushWord s L S W V) as (L1 & S1 & V1 & N1 & _).
      pose proof (flushWord_frame s) as (F1 & _ & F3 & _).
      set (s1 := snd (flushWord s)) in *.
      inversion H; subst ret e s'. clear H.
      destruct V1 as (Vl & Vs & Vw & FS & FW & FK & Ve).
      apply kept3 in FK as (K1 & K2 & K3).
      exists L1, [], S1, [], []. cbn [app].
      split; [cbn; now rewrite F1, Hp |].
      split; [| split; [cbn; lia | split; [reflexivity |]]].
      * unfold view. cbn [prefix line space word set_err set_line].
        split; [apply line_holds_zero |]. split; [exact Vs |].
        split; [exact Vw |]. split; [exact FS |]. split; [constructor |].
        split; [| now left].
        apply (kept3 [] S1 []). repeat split; try constructor; exact K2.
      * intros _. split; [rewrite <- F3; apply Vl |].
        split; [cbn [nonspace filter]; rewrite !app_nil_r; exact N1 |].
        split; [exact Ve |]. split; [exact K1 |]. intros _. split; reflexivity.
    + inversion H; subst ret e s'. clear H.
      exists [], L, S, W, []. cbn [app].
      split; [cbn; now rewrite Hp |]. split; [exact V |].
      split; [cbn; lia |]. split; [reflexivity |]. discriminate.
  - inversion Hin as [| ? ? Hc Hrest]; subst.
    set (s0 := set_r {| pending := rest; final := final (r s) |} s) in H.
    assert (H0 : pending (r s0) = rest /\ err s0 = None /\ prefix s0 = prefix s
                 /\ view s0 L S W)
      by (subst s0; repeat split; try assumption; apply V).
    clearbody s0. destruct H0 as (P0 & E0 & X0 & V0).
    assert (go : forall s2 L2 S2 W2,
               r s2 = r s0 -> err s2 = err s0 -> prefix s2 = prefix s0 ->
               view s2 L2 S2 W2 ->
               nonspace L2 ++ W2 = nonspace L ++ W ++ nonspace [c] ->
               c <> 10 ->
               loop rest s2 = Returned ret e s' ->
               exists R L' S' W' consumed,
                 c :: rest = consumed ++ pending (r s')
                 /\ view s' L' S' W'
                 /\ (newlines consumed <= 1)%nat
                 /\ (err s' = Some EOF -> newlines consumed = 0%nat)
                 /\ (e = None ->
                     ret = render (prefix s) R
                     /\ nonspace R ++ nonspace L' ++ W'
                        = nonspace L ++ W ++ nonspace consumed
                     /\ ends_in_word R /\ Forall kept R
                     /\ (err s' <> None -> L' = [] /\ W' = []))).
    { intros s2 L2 S2 W2 R2 E2 X2 V2 N2 Hnl Hl.
      destruct (IH s2 L2 S2 W2 ret e s' Hrest) as
        (R & L' & S' & W' & consumed & I1 & I2 & I3 & I4 & I5);
        try congruence; try assumption.
      exists R, L', S', W', (c :: consumed).
      split; [cbn [app]; now rewrite <- I1 |]. split; [exact I2 |].
      rewrite (newlines_cons c consumed Hnl).
      split; [exact I3 |]. split; [exact I4 |].
      intros En. destruct (I5 En) as (J1 & J2 & J3 & J4 & J5).
      split; [congruence |]. split; [| split; [exact J3 | split; [exact J4 | exact J5]]].
      rewrite J2. change (c :: consumed) with ([c] ++ consumed).
      rewrite nonspace_app. rewrite !app_assoc. f_equal.
      rewrite <- !app_assoc. exact N2. }
    destruct (processChar c s0) as [s1 | s1 | o] eqn:Hpc.
    + destruct (processChar_frame c s0 s1 (or_introl Hpc)) as (A1 & _ & A3 & _ & A5).
      destruct (view_processChar_next c s0 s1 L S W Hc V0 (or_introl Hpc))
        as (Hnl & L1 & S1 & W1 & V1 & N1).
      destruct (widthCheck s1) as [s2 | s2 | o] eqn:Hwc.
      * destruct (widthCheck_frame s1 s2 (or_introl Hwc)) as (B1 & _ & B3 & _ & B5).
        destruct (view_widthCheck_next s1 s2 L1 S1 W1 V1 (or_introl Hwc))
          as (L2 & S2 & W2 & V2 & N2).
        apply (go s2 L2 S2 W2); try congruence; assumption.
      * destruct (widthCheck_frame s1 s2 (or_intror Hwc)) as (B1 & _ & B3 & _ & B5).
        destruct (view_widthCheck_next s1 s2 L1 S1 W1 V1 (or_intror Hwc))
          as (L2 & S2 & W2 & V2 & N2).
        apply (go s2 L2 S2 W2); try congruence; assumption.
      * destruct (widthCheck_exit s1 o Hwc)
          as (s2 & -> & E2 & E3 & E4 & E5 & _).
        inversion H; subst ret e s2. clear H.
        exists [], L1, S1, W1, [c].
        split; [cbn [app]; rewrite E5, A1, P0; reflexivity |].
        split; [exact (view_widthCheck_exit s1 s' L1 S1 W1 _ _ V1 Hwc) |].
        split; [apply newlines_one |].
        split; [intros Ee; rewrite E4 in Ee; inversion Ee; now contradiction E2 |].
        discriminate.
    + destruct (processChar_frame c s0 s1 (or_intror Hpc)) as (A1 & _ & A3 & _ & A5).
      destruct (view_processChar_next c s0 s1 L S W Hc V0 (or_intror Hpc))
        as (Hnl & L1 & S1 & W1 & V1 & N1).
      apply (go s1 L1 S1 W1); try congruence; assumption.
    + subst o.
      destruct (processChar_exit c s0 _ Hpc)
        as [? | (ret0 & s1 & Eq & A1 & A2 & _)]; [discriminate |].
      inversion Eq; subst ret0 e s1. clear Eq.
      destruct (view_processChar_exit c s0 s' L S W ret None Hc V0 Hpc)
        as (_ & R & L' & S' & W' & J1 & J2 & J3 & J4 & J5).
      exists R, L', S', W', [c].
      split; [cbn [app]; rewrite A1, P0; reflexivity |]. split; [exact J2 |].
      split; [apply newlines_one |].
      split; [intros Ee; congruence |].
      intros _. split; [congruence |]. split; [exact J3 |].
      split; [exact J4 |]. split; [exact J5 |].
      intros Ee. contradiction Ee. congruence.
Qed.

Lemma ReadLine_text (s : Scanner) (L S W : list rune) (ret : gostring)
    (e : option error) (s' : Scanner) :
  Forall is_rune (pending (r s)) -> err s = None -> view s L S W ->
  ReadLine s = Returned ret e s' ->
  exists R L' S' W' consumed,
    pending (r s) = consumed ++ pending (r s')
    /\ view s' L' S' W'
    /\ (newlines consumed <= 1)%nat
    /\ (err s' = Some EOF -> newlines consumed = 0%nat)
    /\ (e = None ->
        ret = render (prefix s) R
        /\ nonspace R ++ nonspace L' ++ W' = nonspace L ++ W ++ nonspace consumed
        /\ ends_in_word R /\ Forall kept R
        /\ (err s' <> None -> L' = [] /\ W' = [])).
Proof.
  intros Hr He V H. unfold ReadLine in H. rewrite He in H.
  now apply (loop_text (pending (r s)) s L S W ret e s').
Qed.

Lemma view_configured (rs : RuneScanner) (limit : Z) (p : gostring) (tw : Z) :
  view (configured rs limit p tw) [] [] [].
Proof.
  split; [apply line_holds_zero |]. split; [apply holds_zero |].
  split; [apply holds_zero |]. split; [constructor |]. split; [constructor |].
  split; [constructor | now left].
Qed.

Lemma view_reaches (s0 s : Scanner) :
  Forall is_rune (pending (r s0)) -> (exists L S W, view s0 L S W) ->
  reaches s0 s ->
  Forall is_rune (pending (r s)) /\ exists L S W, view s L S W.
Proof.
  intros Hr V R. induction R as [| s1 ret e s2 R [IH1 IH2] Hcall]; [now split |].
  destruct (err s1) as [x |] eqn:He.
  - rewrite (ReadLine_terminal s1 x He) in Hcall. inversion Hcall; subst.
    now split.
  - destruct IH2 as (L & S & W & V1).
    destruct (ReadLine_text s1 L S W ret e s2 IH1 He V1 Hcall)
      as (R0 & L' & S' & W' & consumed & E1 & V2 & _).
    split; [| now exists L', S', W'].
    rewrite E1 in IH1. now apply Forall_app in IH1.
Qed.

(** ** The shape of a line *)

(** Every line ReadLine returns is empty or is the prefix followed by the
    encodings of one or more runes, none of them a tab or a newline and the
    last of them not whitespace: the prefix stands once, at the start of
    each line that is not empty, and tabs never reach a line. *)
Theorem line_is_prefixed_text :
  forall (rs : RuneScanner) (limit : Z) (p : gostring) (tw : Z),
    Forall is_rune (pending rs) ->
    forall s ret s',
      reaches (configured rs limit p tw) s ->
      ReadLine s = Returned ret None s' ->
      exists R, ret = render p R /\ ends_in_word R /\ Forall kept R.
Proof.
  intros rs limit p tw Hr s ret s' R Hcall.
  destruct (view_reaches (configured rs limit p tw) s Hr) as (Hr1 & L & S & W & V);
    [exists [], [], []; apply view_configured | exact R |].
  destruct (err s) as [x |] eqn:He.
  { rewrite (ReadLine_terminal s x He) in Hcall. discriminate. }
  destruct (ReadLine_text s L S W ret None s' Hr1 He V Hcall)
    as (R0 & L' & S' & W' & consumed & _ & _ & _ & _ & T).
  destruct (T eq_refl) as (T1 & _ & T3 & T4 & _).
  exists R0. split; [| split; assumption].
  destruct (reaches_config _ s R) as (Hpre & _). rewrite Hpre in T1. exact T1.
Qed.

Lemma line_is_prefixed_text_witness :
  let s := configured (reader (str "1" ++ [0x09] ++ str "foo bar")) 8 (str "> ") 4 in
  exists s', ReadLine s = Returned (str "> 1 foo") None s'
             /\ exists R, str "> 1 foo" = render (str "> ") R
                          /\ ends_in_word R /\ Forall kept R.
Proof.
  intros s.
  destruct (ReadLine s) as [ret e s' |] eqn:Hcall; [| discriminate].
  assert (Hret : ret = str "> 1 foo" /\ e = None)
    by (vm_compute in Hcall; inversion Hcall; split; reflexivity).
  destruct Hret as [-> ->].
  exists s'. split; [reflexivity |].
  refine (line_is_prefixed_text
            (reader (str "1" ++ [0x09] ++ str "foo bar")) 8 (str "> ") 4 _
            s (str "> 1 foo") s' (reaches_here _) Hcall).
  repeat constructor; unfold is_rune; lia.
Defined.

(** ** Reading to the end *)

Lemma newlines_app (a b : list rune) :
  newlines (a ++ b) = (newlines a + newlines b)%nat.
Proof. unfold newlines. now rewrite filter_app, length_app. Qed.

(** Reading a source that ends with io.EOF until ReadLine reports it. *)
Lemma readLines_text (fuel : nat) : forall s L S W,
  (callsLeft s < fuel)%nat ->
  Forall is_rune (pending (r s)) -> 0 <= tabWidth s -> final (r s) = EOF ->
  view s L S W ->
  err s = None
  \/ (err s = Some EOF /\ L = [] /\ W = [] /\ pending (r s) = []) ->
  exists Rs,
    readLines fuel s = (map (render (prefix s)) Rs, AtEOF)
    /\ nonspace (concat Rs) = nonspace L ++ W ++ nonspace (pending (r s))
    /\ (length Rs <= callsLeft s)%nat
    /\ (err s = None -> (newlines (pending (r s)) + 1 <= length Rs)%nat).
Proof.
  induction fuel as [| fuel IH]; intros s L S W Hfuel Hr Htw Hf V Hst; [lia |].
  cbn [readLines].
  destruct Hst as [He | (He & -> & -> & Hp)].
  2: { rewrite (ReadLine_terminal s EOF He). exists []. rewrite Hp.
       split; [reflexivity |]. split; [reflexivity |].
       split; [cbn; lia | congruence]. }
  destruct (ReadLine s) as [ret e s1 |] eqn:Hcall;
    [| now contradiction (ReadLine_no_panic s Htw)].
  destruct (ReadLine_live s ret e s1 He Hcall) as (_ & A2 & A3 & A4 & A5).
  destruct e as [x |].
  { destruct A5 as (_ & -> & Hx & _). now contradiction Hx. }
  destruct (ReadLine_line s ret s1 Hcall) as (_ & _ & _ & D).
  destruct (ReadLine_text s L S W ret None s1 Hr He V Hcall)
    as (R & L1 & S1 & W1 & consumed & T1 & T2 & T3 & T4 & T5).
  destruct (T5 eq_refl) as (U1 & U2 & _ & _ & U5).
  assert (Hr1 : Forall is_rune (pending (r s1)))
    by (rewrite T1 in Hr; now apply Forall_app in Hr).
  assert (Hst1 : err s1 = None
                 \/ (err s1 = Some EOF /\ L1 = [] /\ W1 = [] /\ pending (r s1) = [])).
  { destruct A5 as [[A5 _] | (A5 & _ & A6)]; [now left | right].
    destruct U5 as [-> ->]; [congruence |]. repeat split; assumption. }
  destruct (IH s1 L1 S1 W1) as (Rs & I1 & I2 & I3 & I4);
    try assumption; try lia; try congruence.
  rewrite I1. exists (R :: Rs). rewrite A2 in *.
  split; [cbn [map]; now rewrite U1 |].
  split; [| split; [cbn [length]; lia |]].
  - cbn [concat]. rewrite nonspace_app, I2, T1, nonspace_app.
    rewrite !app_assoc. f_equal. rewrite <- !app_assoc. exact U2.
  - intros _. rewrite T1, newlines_app. cbn [length].
    destruct A5 as [[A5 _] | (A5 & _ & A6)].
    + specialize (I4 A5). lia.
    + rewrite (T4 A5), A6. cbn. lia.
Qed.

(** Nothing of the text is lost: read to the end of a source that ends
    with io.EOF, the lines are the renderings of lists of runes whose runes
    other than whitespace are, in order, exactly those of the input. *)
Theorem lines_keep_the_text :
  forall (rs : RuneScanner) (limit : Z) (p : gostring) (tw : Z),
    Forall is_rune (pending rs) -> final rs = EOF -> 0 <= tw ->
    exists Rs,
      readLines (length (pending rs) + 2) (configured rs limit p tw)
      = (map (render p) Rs, AtEOF)
      /\ nonspace (concat Rs) = nonspace (pending rs).
Proof.
  intros rs limit p tw Hr Hf Htw.
  destruct (readLines_text (length (pending rs) + 2)
              (configured rs limit p tw) [] [] [])
    as (Rs & A & B & _); try assumption.
  - cbn. lia.
  - apply view_configured.
  - now left.
  - exists Rs. split; [exact A | exact B].
Qed.

Lemma lines_keep_the_text_witness :
  let rs := reader (str "foo " ++ [0x09] ++ str "bar baz") in
  exists Rs,
    readLines (length (pending rs) + 2) (configured rs 5 (str "--") 4)
    = (map (render (str "--")) Rs, AtEOF)
    /\ nonspace (concat Rs) = nonspace (pending rs).
Proof.
  intros rs.
  apply (lines_keep_the_text rs 5 (str "--") 4).
  - repeat constructor; unfold is_rune; lia.
  - reflexivity.
  - lia.
Defined.

(** The number of lines: read to the end of a source of [n] runes, [k] of
    them newlines, that ends with io.EOF, ReadLine returns at least [k + 1]
    and at most [n + 1] lines before it reports io.EOF; so at least one,
    also on an empty input. *)
Theorem line_count_bounds :
  forall (rs : RuneScanner) (limit : Z) (p : gostring) (tw : Z),
    Forall is_rune (pending rs) -> final rs = EOF -> 0 <= tw ->
    exists lines,
      readLines (length (pending rs) + 2) (configured rs limit p tw)
      = (lines, AtEOF)
      /\ (newlines (pending rs) + 1 <= length lines)%nat
      /\ (length lines <= length (pending rs) + 1)%nat.
Proof.
  intros rs limit p tw Hr Hf Htw.
  destruct (readLines_text (length (pending rs) + 2)
              (configured rs limit p tw) [] [] [])
    as (Rs & A & _ & C & D); try assumption.
  - cbn. lia.
  - apply view_configured.
  - now left.
  - exists (map (render p) Rs). rewrite length_map.
    split; [exact A |]. split; [now apply D |]. cbn in C. lia.
Qed.

Lemma line_count_bounds_witness :
  let rs := reader (str "a" ++ [0x0A; 0x0A] ++ str "b c d") in
  exists lines,
    readLines (length (pending rs) + 2) (configured rs 3 [] 4) = (lines, AtEOF)
    /\ (newlines (pending rs) + 1 <= length lines)%nat
    /\ (length lines <= length (pending rs) + 1)%nat.
Proof.
  intros rs.
  apply (line_count_bounds rs 3 [] 4).
  - repeat constructor; unfold is_rune; lia.
  - reflexivity.
  - lia.
Defined.

(** ** Counts are code points *)





